(** * takram/graphics/path2.h : a shallow embedding of [Path2<T>]

    The development follows the header top to bottom: the scalar and the
    consumed value types ([Vector2], [Command], [Rect]), the [Path] object
    with its two members, a small state-and-fault monad in which the member
    functions are written, the member functions themselves, and then the
    properties of the builders, of [bounds], of [direction] and of
    [reverse]. *)

From Stdlib Require Import ZArith List Bool Lia Permutation.
Import ListNotations.
Local Open Scope Z_scope.

(** ** Scalar

    [T] is instantiated as in [Path2i = Path2<int>]: a 32-bit two's
    complement integer, carried by a [Z].  The two sentinels of [bounds] are
    its limits.  Sums, differences and products are reduced to the 32 bits
    of an [int], the result a machine gives when the exact value does not
    fit. *)

Definition T : Type := Z.

(** [std::numeric_limits<T>::max()] *)
Definition numeric_limits_max : T := 2147483647.

(** [std::numeric_limits<T>::lowest()] *)
Definition numeric_limits_lowest : T := -2147483648.

(** [T()] *)
Definition T_zero : T := 0.

(** The [int] that holds the low 32 bits of [z]. *)
Definition int_wrap (z : Z) : T := (z + 2 ^ 31) mod 2 ^ 32 - 2 ^ 31.

(** [a + b], [a - b] and [a * b] on [int]. *)
Definition int_add (a b : T) : T := int_wrap (a + b).
Definition int_sub (a b : T) : T := int_wrap (a - b).
Definition int_mul (a b : T) : T := int_wrap (a * b).

(** ** Vector2 *)

Module Vector2.

(** Modelled from the spec: [takram/math/vector.h] is not part of the
    sources at hand.  A 2D coordinate value with [x]/[y] fields, equality
    and a 2D cross product; a default-constructed vector is the origin. *)
Record Point : Type := mk { x : T; y : T }.

Definition zero : Point := mk T_zero T_zero.

(** The cross product as the scalar type computes it. *)
Definition cross (a b : Point) : T :=
  int_sub (int_mul (x a) (y b)) (int_mul (y a) (x b)).

(** The cross product of the two vectors as a number. *)
Definition cross_exact (a b : Point) : Z := x a * y b - y a * x b.

Definition eqb (a b : Point) : bool := (x a =? x b) && (y a =? y b).

End Vector2.

Definition Point : Type := Vector2.Point.

(** ** Command *)

Module Command.

Inductive Kind : Type := MOVE | LINE | QUADRATIC | CUBIC | CLOSE.

Definition Kind_eqb (a b : Kind) : bool :=
  match a, b with
  | MOVE, MOVE | LINE, LINE | QUADRATIC, QUADRATIC
  | CUBIC, CUBIC | CLOSE, CLOSE => true
  | _, _ => false
  end.

(** Modelled from the spec: [takram/graphics/command.h] is not part of the
    sources at hand.  A command is a value with a kind, two control points
    and a terminal point; every command stores all three points, the ones
    its kind does not use keep the value the constructor gave them. *)
Record t : Type := mk
  { kind : Kind; control1 : Point; control2 : Point; point : Point }.

(** The four constructors used by the path: kind alone, kind and point,
    kind, control and point, kind, two controls and point.  Points that are
    not given are default-constructed. *)
Definition of_kind (k : Kind) : t :=
  mk k Vector2.zero Vector2.zero Vector2.zero.

Definition of_point (k : Kind) (p : Point) : t :=
  mk k Vector2.zero Vector2.zero p.

Definition of_control (k : Kind) (c p : Point) : t :=
  mk k c Vector2.zero p.

Definition of_controls (k : Kind) (c1 c2 p : Point) : t :=
  mk k c1 c2 p.

(** The header reads the kind through [type()] in the loops and through
    [kind()] in [close]; [control()] is the first control point. *)
Definition type (c : t) : Kind := kind c.
Definition control (c : t) : Point := control1 c.

(** Assignment through the mutable accessors. *)
Definition set_point (p : Point) (c : t) : t :=
  mk (kind c) (control1 c) (control2 c) p.

Definition set_control1 (p : Point) (c : t) : t :=
  mk (kind c) p (control2 c) (point c).

Definition set_control2 (p : Point) (c : t) : t :=
  mk (kind c) (control1 c) p (point c).

(** Structural equality: kind and points. *)
Definition eqb (a b : t) : bool :=
  Kind_eqb (kind a) (kind b)
  && Vector2.eqb (control1 a) (control1 b)
  && Vector2.eqb (control2 a) (control2 b)
  && Vector2.eqb (point a) (point b).

End Command.

Definition Command : Type := Command.t.
Import Command(Kind, MOVE, LINE, QUADRATIC, CUBIC, CLOSE).

(** ** Rect *)

Module Rect.

(** Modelled from the spec: [takram/math/rect.h] is not part of the sources
    at hand.  A rectangle is built from its min corner and its max
    corner. *)
Record t : Type := mk { min : Point; max : Point }.

Definition width (r : t) : T := Vector2.x (max r) - Vector2.x (min r).
Definition height (r : t) : T := Vector2.y (max r) - Vector2.y (min r).

End Rect.

Definition Rect : Type := Rect.t.

(** ** Path *)

Inductive Direction : Type := UNDEFINED | CLOCKWISE | COUNTER_CLOCKWISE.

(** The two data members of [Path<T, 2>]. *)
Record Path : Type := mkPath
  { commands_ : list Command; direction_ : Direction }.

(** [Path()] and [Path(commands)] *)
Definition Path_new : Path := mkPath [] UNDEFINED.
Definition Path_of (commands : list Command) : Path := mkPath commands UNDEFINED.

(** ** Member functions as state transformers

    A member function is run on the receiver [this]; it returns a value and
    the receiver after the call, or [None] when the call leaves defined
    behaviour ([back()] of an empty vector, an inverted iterator range, a
    failed [assert]). *)

Definition M (A : Type) : Type := Path -> option (A * Path).

Definition ret {A} (a : A) : M A := fun this => Some (a, this).

Definition bind {A B} (m : M A) (k : A -> M B) : M B :=
  fun this =>
    match m this with
    | Some (a, this') => k a this'
    | None => None
    end.

Definition fault {A} : M A := fun _ => None.

Definition lift {A} (o : option A) : M A :=
  fun this => match o with Some a => Some (a, this) | None => None end.

Declare Scope member_scope.
Delimit Scope member_scope with member.
Notation "x <- m ;; k" := (bind m (fun x => k))
  (at level 61, m at next level, right associativity) : member_scope.
Notation "m ;; k" := (bind m (fun _ => k))
  (at level 61, right associativity) : member_scope.
Local Open Scope member_scope.

(** Receiver after a call that returned, and the value it returned. *)
Definition exec {A} (m : M A) (this : Path) : option Path :=
  match m this with Some (_, this') => Some this' | None => None end.

Definition eval {A} (m : M A) (this : Path) : option A :=
  match m this with Some (a, _) => Some a | None => None end.

(** [assert(cond)]: compiled out under [NDEBUG], fatal otherwise. *)
Definition assert (NDEBUG cond : bool) : M unit :=
  if NDEBUG || cond then ret tt else fault.

(** *** The vector [commands_] *)

Definition commands : M (list Command) := fun this => Some (commands_ this, this).

Definition set_commands (cs : list Command) : M unit :=
  fun this => Some (tt, mkPath cs (direction_ this)).

Fixpoint last_of {A} (l : list A) : option A :=
  match l with
  | [] => None
  | [a] => Some a
  | _ :: l' => last_of l'
  end.

Definition empty : M bool :=
  cs <- commands ;; ret (match cs with [] => true | _ => false end).

Definition size : M nat :=
  cs <- commands ;; ret (length cs).

Definition front : M Command :=
  cs <- commands ;; lift (hd_error cs).

Definition back : M Command :=
  cs <- commands ;; lift (last_of cs).

Definition clear : M unit := set_commands [].

Definition emplace_back (c : Command) : M unit :=
  cs <- commands ;; set_commands (cs ++ [c]).

(** *** Mutators and comparison *)

Definition set (cs : list Command) : M unit := set_commands cs.

Definition reset : M unit := clear.

Fixpoint commands_eqb (a b : list Command) : bool :=
  match a, b with
  | [], [] => true
  | c :: a', d :: b' => Command.eqb c d && commands_eqb a' b'
  | _, _ => false
  end.

(** [operator==]: the command vectors are compared, the cached direction is
    not. *)
Definition Path_eqb (a b : Path) : bool := commands_eqb (commands_ a) (commands_ b).

(** *** Adding commands *)

Definition close : M unit :=
  b <- back ;;
  if negb (Command.Kind_eqb (Command.kind b) CLOSE)
  then emplace_back (Command.of_kind CLOSE)
  else ret tt.

Definition moveTo (point : Point) : M unit :=
  clear ;;
  emplace_back (Command.of_point MOVE point).

Definition lineTo (point : Point) : M unit :=
  e <- empty ;;
  if e then moveTo point
  else
    emplace_back (Command.of_point LINE point) ;;
    f <- front ;;
    if Vector2.eqb point (Command.point f) then close else ret tt.

Definition quadraticTo (control point : Point) : M unit :=
  e <- empty ;;
  if e then moveTo point
  else
    emplace_back (Command.of_control QUADRATIC control point) ;;
    f <- front ;;
    if Vector2.eqb point (Command.point f) then close else ret tt.

Definition cubicTo (control1 control2 point : Point) : M unit :=
  e <- empty ;;
  if e then moveTo point
  else
    emplace_back (Command.of_controls CUBIC control1 control2 point) ;;
    f <- front ;;
    if Vector2.eqb point (Command.point f) then close else ret tt.

(** A builder call, and a sequence of them run from left to right. *)
Inductive Call : Type :=
| MoveTo (point : Point)
| LineTo (point : Point)
| QuadraticTo (control point : Point)
| CubicTo (control1 control2 point : Point)
| Close.

Definition call (c : Call) : M unit :=
  match c with
  | MoveTo p => moveTo p
  | LineTo p => lineTo p
  | QuadraticTo c p => quadraticTo c p
  | CubicTo c1 c2 p => cubicTo c1 c2 p
  | Close => close
  end.

Fixpoint calls (l : list Call) : M unit :=
  match l with
  | [] => ret tt
  | c :: l' => call c ;; calls l'
  end.

(** *** Attributes: [bounds] *)

(** The four running extremes of the scan. *)
Record Extent : Type := mkExtent
  { min_x : T; min_y : T; max_x : T; max_y : T }.

Definition Extent_init : Extent :=
  mkExtent numeric_limits_max numeric_limits_max
           numeric_limits_lowest numeric_limits_lowest.

(** The block of four [if]s the switch repeats for one point [v]. *)
Definition fold_point (v : Point) (e : Extent) : Extent :=
  let min_x := if Vector2.x v <? min_x e then Vector2.x v else min_x e in
  let min_y := if Vector2.y v <? min_y e then Vector2.y v else min_y e in
  let max_x := if Vector2.x v >? max_x e then Vector2.x v else max_x e in
  let max_y := if Vector2.y v >? max_y e then Vector2.y v else max_y e in
  mkExtent min_x min_y max_x max_y.

(** The case labels of the switch, each falling through to the next. *)
Definition case_MOVE_LINE (command : Command) (e : Extent) : Extent :=
  fold_point (Command.point command) e.

Definition case_QUADRATIC (command : Command) (e : Extent) : Extent :=
  case_MOVE_LINE command (fold_point (Command.control command) e).

Definition case_CUBIC (command : Command) (e : Extent) : Extent :=
  case_QUADRATIC command (fold_point (Command.control2 command) e).

Definition bounds_switch (e : Extent) (command : Command) : Extent :=
  match Command.type command with
  | CUBIC => case_CUBIC command e
  | QUADRATIC => case_QUADRATIC command e
  | MOVE | LINE => case_MOVE_LINE command e
  | CLOSE => e
  end.

(** The four [if]s after the loop. *)
Definition normalize (e : Extent) : Extent :=
  let min_x := if min_x e =? numeric_limits_max then T_zero else min_x e in
  let min_y := if min_y e =? numeric_limits_max then T_zero else min_y e in
  let max_x := if max_x e =? numeric_limits_lowest then T_zero else max_x e in
  let max_y := if max_y e =? numeric_limits_lowest then T_zero else max_y e in
  mkExtent min_x min_y max_x max_y.

Definition Rect_of (e : Extent) : Rect :=
  Rect.mk (Vector2.mk (min_x e) (min_y e)) (Vector2.mk (max_x e) (max_y e)).

Definition bounds : M Rect :=
  cs <- commands ;;
  ret (Rect_of (normalize (fold_left bounds_switch cs Extent_init))).

(** *** Direction *)

(** The loop of [direction]: [first] and [second] walk the vector one
    apart, [rest] is what [second] has still to visit. *)
Fixpoint direction_loop (NDEBUG : bool) (front first : Command)
    (rest : list Command) (sum : T) : M T :=
  match rest with
  | [] => ret sum
  | second :: rest' =>
      match Command.type second with
      | LINE | QUADRATIC | CUBIC =>
          direction_loop NDEBUG front second rest'
            (int_add sum
               (Vector2.cross (Command.point first) (Command.point second)))
      | CLOSE =>
          direction_loop NDEBUG front second rest'
            (int_add sum
               (Vector2.cross (Command.point second) (Command.point front)))
      | MOVE =>
          assert NDEBUG false ;;
          direction_loop NDEBUG front second rest' sum
      end
  end.

Definition direction (NDEBUG : bool) : M Direction :=
  n <- size ;;
  if (n <? 3)%nat then ret UNDEFINED
  else
    cs <- commands ;;
    match cs with
    | [] => fault
    | first :: rest =>
        sum <- direction_loop NDEBUG first first rest T_zero ;;
        ret (if sum <? 0 then COUNTER_CLOCKWISE else CLOCKWISE)
    end.

(** *** Reverse *)

(** First loop of [reverse]: the points a command appends to [points]. *)
Definition collect (command : Command) : list Point :=
  match Command.type command with
  | MOVE | LINE => [Command.point command]
  | QUADRATIC => [Command.control1 command; Command.point command]
  | CUBIC =>
      [Command.control1 command; Command.control2 command;
       Command.point command]
  | CLOSE => []
  end.

(** [std::reverse(begin + first, begin + last)] on a vector; the range has
    to be a valid one. *)
Definition std_reverse {A} (first last : nat) (v : list A) : option (list A) :=
  if ((first <=? last) && (last <=? length v))%nat
  then Some (firstn first v
             ++ rev (firstn (last - first) (skipn first v))
             ++ skipn last v)
  else None.

(** One turn of the second loop of [reverse]: the command takes its points
    from [itr], which advances; reading past the end of [points] is a
    fault. *)
Definition assign (command : Command) (itr : list Point)
    : option (Command * list Point) :=
  match Command.type command, itr with
  | (MOVE | LINE), p :: itr' =>
      Some (Command.set_point p command, itr')
  | QUADRATIC, c :: p :: itr' =>
      Some (Command.set_point p (Command.set_control1 c command), itr')
  | CUBIC, c1 :: c2 :: p :: itr' =>
      Some (Command.set_point p
              (Command.set_control2 c2 (Command.set_control1 c1 command)),
            itr')
  | CLOSE, _ => Some (command, itr)
  | _, _ => None
  end.

Fixpoint reassign (cs : list Command) (itr : list Point)
    : option (list Command * list Point) :=
  match cs with
  | [] => Some ([], itr)
  | command :: cs' =>
      match assign command itr with
      | Some (command', itr') =>
          match reassign cs' itr' with
          | Some (cs'', itr'') => Some (command' :: cs'', itr'')
          | None => None
          end
      | None => None
      end
  end.

Definition reverse (NDEBUG : bool) : M unit :=
  cs <- commands ;;
  let points := flat_map collect cs in
  b <- back ;;
  cs <- lift (if Command.Kind_eqb (Command.type b) CLOSE
              then std_reverse 1 (Nat.pred (length cs)) cs
              else std_reverse 1 (length cs) cs) ;;
  let points := rev points in
  r <- lift (reassign cs points) ;;
  set_commands (fst r) ;;
  assert NDEBUG (match snd r with [] => true | _ => false end).

(** [reversed() const]: [reverse] runs on a copy, the receiver stays. *)
Definition reversed (NDEBUG : bool) : M Path :=
  fun this =>
    match reverse NDEBUG this with
    | Some (_, copy) => Some (copy, this)
    | None => None
    end.

(** ** What the statements below speak about *)

(** The sum [direction] has accumulated when its loop ends, if it ends. *)
Definition direction_sum (NDEBUG : bool) (cs : list Command) : option T :=
  match cs with
  | [] => None
  | first :: rest => eval (direction_loop NDEBUG first first rest T_zero) Path_new
  end.

(** The sum of the shoelace formula over the on-curve points, the loop
    closed by a CLOSE from the previous command's point back to the first
    command's point. *)
Fixpoint shoelace_loop (front first : Command) (rest : list Command) : Z :=
  match rest with
  | [] => 0
  | second :: rest' =>
      match Command.kind second with
      | CLOSE =>
          Vector2.cross_exact (Command.point first) (Command.point front)
          + shoelace_loop front second rest'
      | _ =>
          Vector2.cross_exact (Command.point first) (Command.point second)
          + shoelace_loop front second rest'
      end
  end.

Definition shoelace_sum (cs : list Command) : Z :=
  match cs with
  | [] => 0
  | first :: rest => shoelace_loop first first rest
  end.

Definition opposite (d : Direction) : Direction :=
  match d with
  | UNDEFINED => UNDEFINED
  | CLOCKWISE => COUNTER_CLOCKWISE
  | COUNTER_CLOCKWISE => CLOCKWISE
  end.

Definition is_close (c : Command) : bool :=
  Command.Kind_eqb (Command.kind c) CLOSE.

Definition is_segment (c : Command) : bool :=
  match Command.kind c with
  | LINE | QUADRATIC | CUBIC => true
  | MOVE | CLOSE => false
  end.

(** Number of CLOSE commands the vector ends with. *)
Fixpoint leading_closes (l : list Command) : nat :=
  match l with
  | c :: l' => if is_close c then S (leading_closes l') else O
  | [] => O
  end.

Definition trailing_closes (cs : list Command) : nat := leading_closes (rev cs).

(** The points [bounds] folds for one command, in the order it folds them,
    and the rectangle they give: per-axis running minimum and maximum from
    the sentinels, an extreme still at its sentinel replaced by zero. *)
Definition bounds_points (c : Command) : list Point :=
  match Command.kind c with
  | CUBIC => [Command.control2 c; Command.control c; Command.point c]
  | QUADRATIC => [Command.control c; Command.point c]
  | MOVE | LINE => [Command.point c]
  | CLOSE => []
  end.

Definition running (e : Extent) (v : Point) : Extent :=
  mkExtent (Z.min (min_x e) (Vector2.x v)) (Z.min (min_y e) (Vector2.y v))
           (Z.max (max_x e) (Vector2.x v)) (Z.max (max_y e) (Vector2.y v)).

Definition bounds_of_points (l : list Point) : Rect :=
  let e := fold_left running l Extent_init in
  Rect.mk
    (Vector2.mk (if min_x e =? numeric_limits_max then 0 else min_x e)
                (if min_y e =? numeric_limits_max then 0 else min_y e))
    (Vector2.mk (if max_x e =? numeric_limits_lowest then 0 else max_x e)
                (if max_y e =? numeric_limits_lowest then 0 else max_y e)).

(** What the three appending builders do on a path that has a first
    command [f]: the new command goes to the back, and a CLOSE after it when
    the terminal point is the point of [f]. *)
Definition appended (c : Command) (f : Command) (this : Path) : Path :=
  if Vector2.eqb (Command.point c) (Command.point f)
  then mkPath (commands_ this ++ [c; Command.of_kind CLOSE]) (direction_ this)
  else mkPath (commands_ this ++ [c]) (direction_ this).

(** The first command of the vector is a MOVE. *)
Definition starts_with_move (cs : list Command) : Prop :=
  match cs with
  | c :: _ => Command.kind c = MOVE
  | [] => False
  end.

(** What the second loop of [reverse] leaves of a command: its kind and the
    points its kind does not use. *)
Definition blank (c : Command) : Command :=
  match Command.kind c with
  | MOVE | LINE => Command.set_point Vector2.zero c
  | QUADRATIC =>
      Command.set_point Vector2.zero (Command.set_control1 Vector2.zero c)
  | CUBIC =>
      Command.set_point Vector2.zero
        (Command.set_control2 Vector2.zero
           (Command.set_control1 Vector2.zero c))
  | CLOSE => c
  end.

(** The end of [reverse], once the second loop has run. *)
Definition finish (NDEBUG : bool) (d : Direction)
    (r : option (list Command * list Point)) : option (unit * Path) :=
  match r with
  | Some (cs, itr) =>
      if NDEBUG || match itr with [] => true | _ => false end
      then Some (tt, mkPath cs d) else None
  | None => None
  end.

(** The paths on which the two ends [reverse] pins are the same ones before
    and after it: not empty, not the lone CLOSE, and with a second command
    that is no CLOSE unless the last command is one. *)
Definition reverse_stable (cs : list Command) : bool :=
  match cs with
  | [] => false
  | [c] => negb (is_close c)
  | _ :: c1 :: _ =>
      match last_of cs with
      | Some b => is_close b || negb (is_close c1)
      | None => false
      end
  end.

(** A MOVE, then LINE, QUADRATIC and CUBIC commands, and nothing else. *)
Definition open_path (cs : list Command) : bool :=
  match cs with
  | [] => false
  | c :: l => Command.Kind_eqb (Command.kind c) MOVE && forallb is_segment l
  end.

(** Sum of the cross products of neighbours along a polyline, as a
    number. *)
Fixpoint chain (l : list Point) : Z :=
  match l with
  | [] => 0
  | p :: l' =>
      match l' with
      | [] => 0
      | q :: _ => Vector2.cross_exact p q + chain l'
      end
  end.

(** A segment that arrived from [s], turned round: it now ends in [s] and
    the two controls of a CUBIC have changed places. *)
Definition flip_segment (s : Point) (seg : Command) : Command :=
  match Command.kind seg with
  | CUBIC =>
      Command.set_point s
        (Command.set_control2 (Command.control1 seg)
           (Command.set_control1 (Command.control2 seg) seg))
  | _ => Command.set_point s seg
  end.

(** The segments after the start point [s], turned round one by one onto
    [acc]; the point returned is where the turned path starts. *)
Fixpoint flip (s : Point) (segs acc : list Command) : Point * list Command :=
  match segs with
  | [] => (s, acc)
  | seg :: segs' => flip (Command.point seg) segs' (flip_segment s seg :: acc)
  end.

(** ** The rest of the interface *)

(** [operator!=] *)
Definition Path_neqb (a b : Path) : bool := negb (Path_eqb a b).

(** The coordinate overloads build the point and call the point overload. *)
Definition moveTo_xy (x y : T) : M unit := moveTo (Vector2.mk x y).

Definition lineTo_xy (x y : T) : M unit := lineTo (Vector2.mk x y).

Definition quadraticTo_xy (cx cy x y : T) : M unit :=
  quadraticTo (Vector2.mk cx cy) (Vector2.mk x y).

Definition cubicTo_xy (cx1 cy1 cx2 cy2 x y : T) : M unit :=
  cubicTo (Vector2.mk cx1 cy1) (Vector2.mk cx2 cy2) (Vector2.mk x y).

(** The [int] index of the element access converted to the unsigned 64-bit
    [size_type] of the vector. *)
Definition size_type_of_int (index : Z) : Z := index mod 2 ^ 64.

(** [at(index)], which is [commands_.at(index)]: the element when the
    converted index is below the size; [std::out_of_range] is thrown
    otherwise, and a call that throws is [None] as well. *)
Definition at_ (index : Z) : M Command :=
  cs <- commands ;;
  let n := size_type_of_int index in
  if n <? Z.of_nat (length cs) then lift (nth_error cs (Z.to_nat n))
  else fault.

(** [operator[]] goes through [commands_.at(index)] too. *)
Definition subscript (index : Z) : M Command :=
  cs <- commands ;;
  let n := size_type_of_int index in
  if n <? Z.of_nat (length cs) then lift (nth_error cs (Z.to_nat n))
  else fault.

(** An iterator into [commands_] is its offset from [std::begin]. *)
Definition Iterator : Type := nat.

Definition begin_ : M Iterator := ret O.

Definition end_ : M Iterator := n <- size ;; ret n.

(** A [std::reverse_iterator] holds a base iterator; it designates the
    element before its base, and incrementing it moves the base back. *)
Record ReverseIterator : Type := mkReverseIterator { base : Iterator }.

(** [rbegin()] wraps [begin()], [rend()] wraps [end()]. *)
Definition rbegin : M ReverseIterator :=
  b <- begin_ ;; ret (mkReverseIterator b).

Definition rend : M ReverseIterator :=
  e <- end_ ;; ret (mkReverseIterator e).

(** The loop from [first] until [last] is met, dereferencing and then
    incrementing a reverse iterator:
    the commands visited, or [None] when the walk steps before the beginning
    of the vector. *)
Fixpoint walk_base (cs : list Command) (last : Iterator) (b : Iterator)
    : option (list Command) :=
  match b with
  | O => if Nat.eqb O last then Some [] else None
  | S b' =>
      if Nat.eqb (S b') last then Some []
      else
        match nth_error cs b' with
        | Some c =>
            match walk_base cs last b' with
            | Some visited => Some (c :: visited)
            | None => None
            end
        | None => None
        end
  end.

Definition walk (first last : ReverseIterator) : M (list Command) :=
  cs <- commands ;; lift (walk_base cs (base last) (base first)).

(** A path as the builders make it: a MOVE and no other MOVE after it. *)
Definition one_move (cs : list Command) : Prop :=
  match cs with
  | [] => True
  | c :: l =>
      Command.kind c = MOVE /\ Forall (fun c => Command.kind c <> MOVE) l
  end.

(** Coordinates strictly between the two sentinels. *)
Definition inside (p : Point) : Prop :=
  numeric_limits_lowest < Vector2.x p < numeric_limits_max
  /\ numeric_limits_lowest < Vector2.y p < numeric_limits_max.

(** [x] is the segment [seg] turned round, as far as kind and control
    points go: the same kind, the two controls of a CUBIC exchanged, the
    controls of any other command as they were. *)
Definition turned (x seg : Command) : Prop :=
  Command.kind x = Command.kind seg
  /\ (Command.kind seg = CUBIC ->
      Command.control1 x = Command.control2 seg
      /\ Command.control2 x = Command.control1 seg)
  /\ (Command.kind seg <> CUBIC ->
      Command.control1 x = Command.control1 seg
      /\ Command.control2 x = Command.control2 seg).

(** * Properties *)

(** ** Vectors and values *)

Lemma last_of_app {A} (l : list A) (a : A) : last_of (l ++ [a]) = Some a.
Proof.
  induction l as [|b l IH]; [reflexivity|].
  simpl. destruct (l ++ [a]) eqn:E; [destruct l; discriminate|exact IH].
Qed.

Lemma last_of_rev {A} (l : list A) : last_of l = hd_error (rev l).
Proof.
  destruct l as [|a l] using rev_ind; [reflexivity|].
  now rewrite last_of_app, rev_app_distr.
Qed.

Lemma last_of_cons {A} (a b : A) (l : list A) :
  last_of (a :: b :: l) = last_of (b :: l).
Proof. reflexivity. Qed.

Lemma last_of_some {A} (a : A) (l : list A) : exists b, last_of (a :: l) = Some b.
Proof.
  revert a. induction l as [|b l IH]; intros a; [now exists a|].
  rewrite last_of_cons. apply IH.
Qed.

Lemma Kind_eqb_eq (a b : Kind) : Command.Kind_eqb a b = true <-> a = b.
Proof. destruct a, b; simpl; split; congruence. Qed.

Lemma Point_eqb_eq (a b : Point) : Vector2.eqb a b = true <-> a = b.
Proof.
  destruct a as [ax ay], b as [bx bx']. unfold Vector2.eqb. simpl.
  rewrite andb_true_iff, !Z.eqb_eq. split; [intros [-> ->]|intros [= -> ->]]; auto.
Qed.

Lemma Command_eqb_refl (c : Command) : Command.eqb c c = true.
Proof.
  unfold Command.eqb.
  rewrite (proj2 (Kind_eqb_eq _ _) eq_refl), !(proj2 (Point_eqb_eq _ _) eq_refl).
  reflexivity.
Qed.

Lemma commands_eqb_refl (cs : list Command) : commands_eqb cs cs = true.
Proof.
  induction cs as [|c cs IH]; [reflexivity|].
  simpl. now rewrite Command_eqb_refl, IH.
Qed.

(** ** Arithmetic of [int] *)

Section IntArithmetic.

Lemma int_wrap_range (z : Z) : - 2 ^ 31 <= int_wrap z < 2 ^ 31.
Proof.
  unfold int_wrap. pose proof (Z.mod_pos_bound (z + 2 ^ 31) (2 ^ 32)). lia.
Qed.

Lemma int_wrap_small (z : Z) : - 2 ^ 31 <= z < 2 ^ 31 -> int_wrap z = z.
Proof. intros H. unfold int_wrap. rewrite Z.mod_small; lia. Qed.

Lemma int_wrap_shift (z k : Z) : int_wrap (z + k * 2 ^ 32) = int_wrap z.
Proof.
  unfold int_wrap.
  replace (z + k * 2 ^ 32 + 2 ^ 31) with (z + 2 ^ 31 + k * 2 ^ 32) by lia.
  now rewrite Z.mod_add by lia.
Qed.

Lemma int_wrap_diff (z : Z) : exists k, int_wrap z = z + k * 2 ^ 32.
Proof.
  exists (- ((z + 2 ^ 31) / 2 ^ 32)). unfold int_wrap.
  rewrite Z.mod_eq by lia. lia.
Qed.

Lemma int_wrap_idem (z : Z) : int_wrap (int_wrap z) = int_wrap z.
Proof. apply int_wrap_small, int_wrap_range. Qed.

Lemma int_wrap_add_l (a b : Z) : int_wrap (int_wrap a + b) = int_wrap (a + b).
Proof.
  destruct (int_wrap_diff a) as [k ->].
  replace (a + k * 2 ^ 32 + b) with (a + b + k * 2 ^ 32) by lia.
  apply int_wrap_shift.
Qed.

Lemma int_wrap_add_r (a b : Z) : int_wrap (a + int_wrap b) = int_wrap (a + b).
Proof. now rewrite Z.add_comm, int_wrap_add_l, Z.add_comm. Qed.

Lemma int_wrap_opp (z : Z) :
  int_wrap (- z)
  = if int_wrap z =? numeric_limits_lowest then numeric_limits_lowest
    else - int_wrap z.
Proof.
  destruct (int_wrap_diff z) as [k Hk]. pose proof (int_wrap_range z) as Hr.
  replace (- z) with (- int_wrap z + k * 2 ^ 32) by lia.
  rewrite int_wrap_shift. unfold numeric_limits_lowest.
  destruct (Z.eqb_spec (int_wrap z) (-2147483648)) as [E|E].
  - rewrite E. reflexivity.
  - apply int_wrap_small. lia.
Qed.

(** The [int] cross product is the cross product reduced to an [int]. *)
Lemma cross_int_wrap (a b : Point) :
  Vector2.cross a b = int_wrap (Vector2.cross_exact a b).
Proof.
  unfold Vector2.cross, Vector2.cross_exact, int_sub, int_mul.
  destruct (int_wrap_diff (Vector2.x a * Vector2.y b)) as [k ->].
  destruct (int_wrap_diff (Vector2.y a * Vector2.x b)) as [l ->].
  replace (Vector2.x a * Vector2.y b + k * 2 ^ 32
           - (Vector2.y a * Vector2.x b + l * 2 ^ 32))
    with (Vector2.x a * Vector2.y b - Vector2.y a * Vector2.x b
          + (k - l) * 2 ^ 32) by lia.
  apply int_wrap_shift.
Qed.

Lemma int_add_cross (sum : T) (a b : Point) :
  int_add sum (Vector2.cross a b) = int_wrap (sum + Vector2.cross_exact a b).
Proof. unfold int_add. now rewrite cross_int_wrap, int_wrap_add_r. Qed.

End IntArithmetic.

(** ** Builders *)

Section Builders.

(** What [close] does, read off the vector. *)
Lemma close_run (this : Path) :
  close this =
  match last_of (commands_ this) with
  | None => None
  | Some b =>
      if is_close b then Some (tt, this)
      else Some (tt, mkPath (commands_ this ++ [Command.of_kind CLOSE])
                            (direction_ this))
  end.
Proof.
  unfold close, back, commands, bind, lift, is_close.
  destruct (last_of (commands_ this)) as [b|]; [|reflexivity].
  destruct (Command.Kind_eqb (Command.kind b) CLOSE); reflexivity.
Qed.

Lemma moveTo_run (point : Point) (this : Path) :
  moveTo point this =
  Some (tt, mkPath [Command.of_point MOVE point] (direction_ this)).
Proof. reflexivity. Qed.

Lemma append_then_close (c f : Command) (l : list Command) (d : Direction) :
  is_close c = false ->
  (emplace_back c ;;
   f' <- front ;;
   if Vector2.eqb (Command.point c) (Command.point f') then close else ret tt)
    (mkPath (f :: l) d)
  = Some (tt, appended c f (mkPath (f :: l) d)).
Proof.
  intros Hc. unfold appended, bind, emplace_back, front, commands, set_commands,
    lift, ret. simpl.
  destruct (Vector2.eqb (Command.point c) (Command.point f)); [|reflexivity].
  rewrite close_run. simpl commands_.
  change (f :: l ++ [c]) with ((f :: l) ++ [c]).
  rewrite last_of_app, Hc. simpl. now rewrite <- app_assoc.
Qed.

Lemma lineTo_run (point : Point) (f : Command) (l : list Command) (d : Direction) :
  lineTo point (mkPath (f :: l) d)
  = Some (tt, appended (Command.of_point LINE point) f (mkPath (f :: l) d)).
Proof. exact (append_then_close (Command.of_point LINE point) f l d eq_refl). Qed.

Lemma quadraticTo_run (control point : Point) (f : Command) (l : list Command)
    (d : Direction) :
  quadraticTo control point (mkPath (f :: l) d)
  = Some (tt, appended (Command.of_control QUADRATIC control point) f
                (mkPath (f :: l) d)).
Proof.
  exact (append_then_close (Command.of_control QUADRATIC control point) f l d eq_refl).
Qed.

Lemma cubicTo_run (control1 control2 point : Point) (f : Command)
    (l : list Command) (d : Direction) :
  cubicTo control1 control2 point (mkPath (f :: l) d)
  = Some (tt, appended (Command.of_controls CUBIC control1 control2 point) f
                (mkPath (f :: l) d)).
Proof.
  exact (append_then_close (Command.of_controls CUBIC control1 control2 point)
           f l d eq_refl).
Qed.

Lemma appended_commands (c f : Command) (this : Path) :
  commands_ (appended c f this) = commands_ this ++ [c]
  \/ commands_ (appended c f this) = (commands_ this ++ [c]) ++ [Command.of_kind CLOSE].
Proof.
  unfold appended. destruct (Vector2.eqb _ _); simpl; [right|left]; trivial.
  now rewrite <- app_assoc.
Qed.

(** Every builder call, whatever it is, unfolds to one of three effects. *)
Lemma call_cases (c : Call) (this this' : Path) :
  call c this = Some (tt, this') ->
  (exists p, commands_ this' = [Command.of_point MOVE p])
  \/ (exists b, last_of (commands_ this) = Some b
        /\ commands_ this'
           = if is_close b then commands_ this
             else commands_ this ++ [Command.of_kind CLOSE])
  \/ (exists f l x, commands_ this = f :: l /\ is_close x = false
        /\ this' = appended x f this).
Proof.
  destruct this as [[|f l] d].
  - destruct c; simpl; unfold lineTo, quadraticTo, cubicTo, bind, empty; simpl;
      intros [= <-]; left; eexists; reflexivity.
  - destruct c; simpl call.
    + rewrite moveTo_run. intros [= <-]. left. eexists; reflexivity.
    + rewrite lineTo_run. intros [= <-]. right; right. now eexists _, _, _.
    + rewrite quadraticTo_run. intros [= <-]. right; right. now eexists _, _, _.
    + rewrite cubicTo_run. intros [= <-]. right; right. now eexists _, _, _.
    + rewrite close_run. destruct (last_of_some f l) as [b Hb].
      simpl commands_. rewrite Hb. intros H. right; left. exists b. split; [easy|].
      destruct (is_close b); injection H as <-; reflexivity.
Qed.

Lemma call_starts_with_move (c : Call) (this this' : Path) :
  commands_ this = [] \/ starts_with_move (commands_ this) ->
  call c this = Some (tt, this') ->
  starts_with_move (commands_ this').
Proof.
  intros Hinv H. apply call_cases in H.
  destruct H as [[p ->]|[(b & Hb & ->)|(f & l & x & Hcs & _ & ->)]].
  - reflexivity.
  - destruct Hinv as [E|Hm]; [rewrite E in Hb; discriminate|].
    destruct (is_close b); [exact Hm|].
    destruct (commands_ this); [contradiction|exact Hm].
  - destruct Hinv as [E|Hm]; [congruence|].
    destruct (appended_commands x f this) as [-> | ->];
      rewrite Hcs in *; exact Hm.
Qed.

Lemma trailing_closes_app (cs : list Command) (c : Command) :
  trailing_closes (cs ++ [c])
  = if is_close c then S (trailing_closes cs) else O.
Proof. unfold trailing_closes. now rewrite rev_app_distr. Qed.

Lemma trailing_closes_last (cs : list Command) (b : Command) :
  last_of cs = Some b -> is_close b = false -> trailing_closes cs = O.
Proof.
  unfold trailing_closes. rewrite last_of_rev.
  destruct (rev cs) as [|x l]; [discriminate|].
  intros [= ->] Hb. simpl. now rewrite Hb.
Qed.

Lemma call_trailing_closes (c : Call) (this this' : Path) :
  (trailing_closes (commands_ this) <= 1)%nat ->
  call c this = Some (tt, this') ->
  (trailing_closes (commands_ this') <= 1)%nat.
Proof.
  intros Hinv H. apply call_cases in H.
  destruct H as [[p ->]|[(b & Hb & ->)|(f & l & x & Hcs & Hx & ->)]].
  - cbv. lia.
  - destruct (is_close b) eqn:E; [exact Hinv|].
    rewrite trailing_closes_app. simpl.
    rewrite (trailing_closes_last _ _ Hb E). lia.
  - destruct (appended_commands x f this) as [-> | ->];
      rewrite !trailing_closes_app, ?Hx; simpl; lia.
Qed.

Lemma calls_invariant (Inv : list Command -> Prop) :
  (forall c this this', Inv (commands_ this) ->
     call c this = Some (tt, this') -> Inv (commands_ this')) ->
  forall l this this', Inv (commands_ this) ->
    exec (calls l) this = Some this' -> Inv (commands_ this').
Proof.
  intros Hstep. induction l as [|c l IH]; intros this this' Hinv.
  - intros [= <-]. exact Hinv.
  - unfold exec. simpl. unfold bind.
    destruct (call c this) as [[[] this1]|] eqn:E; [|discriminate].
    intros H. apply (IH this1); [|exact H]. now apply (Hstep c this).
Qed.

(** No builder call touches the cached direction. *)
Lemma call_keeps_direction_ (c : Call) (this this' : Path) :
  call c this = Some (tt, this') -> direction_ this' = direction_ this.
Proof.
  destruct this as [[|f l] d].
  - destruct c; simpl; unfold lineTo, quadraticTo, cubicTo, bind, empty; simpl;
      intros [= <-]; reflexivity.
  - destruct c; simpl call;
      rewrite ?moveTo_run, ?lineTo_run, ?quadraticTo_run, ?cubicTo_run,
        ?close_run.
    1-4: intros [= <-]; unfold appended; try destruct (Vector2.eqb _ _);
      reflexivity.
    destruct (last_of_some f l) as [b Hb]. simpl commands_. rewrite Hb.
    destruct (is_close b); intros [= <-]; reflexivity.
Qed.

End Builders.

(** ** The claims on the builders *)

(** C7. After [moveTo(pt)] the command sequence is exactly the single
    command MOVE(pt), whatever the path held before, empty or not. *)
Theorem moveTo_discards_all (this : Path) (pt : Point) :
  exists this',
    moveTo pt this = Some (tt, this')
    /\ commands_ this' = [Command.of_point MOVE pt].
Proof. eexists. rewrite moveTo_run. split; reflexivity. Qed.



(** C8. On a non-empty path, [lineTo], [quadraticTo] and [cubicTo] with a
    terminal point equal to the first command's point leave a CLOSE as last
    command, and a [close()] after that changes nothing; [close()] changes
    nothing whenever the last command is a CLOSE; and no run of builder
    calls from the empty path ends with more than one CLOSE. *)
Theorem auto_close_and_close_idempotent :
  (forall this f pt c c1 c2 m,
      hd_error (commands_ this) = Some f ->
      pt = Command.point f ->
      In m [lineTo pt; quadraticTo c pt; cubicTo c1 c2 pt] ->
      exists this' b,
        m this = Some (tt, this')
        /\ last_of (commands_ this') = Some b
        /\ Command.kind b = CLOSE
        /\ close this' = Some (tt, this'))
  /\ (forall this b,
        last_of (commands_ this) = Some b -> Command.kind b = CLOSE ->
        close this = Some (tt, this))
  /\ (forall l this',
        exec (calls l) Path_new = Some this' ->
        (trailing_closes (commands_ this') <= 1)%nat).
Proof.
  assert (Hidem : forall this b,
             last_of (commands_ this) = Some b -> Command.kind b = CLOSE ->
             close this = Some (tt, this)).
  { intros this b Hb Hk. rewrite close_run, Hb. unfold is_close. now rewrite Hk. }
  split; [|split]; [|exact Hidem|].
  - intros [[|f' l] d] f pt c c1 c2 m Hf -> Hm; [discriminate|].
    injection Hf as ->.
    assert (Hgen : forall x, is_close x = false ->
               Command.point x = Command.point f ->
               exists this' b,
                 Some (tt, appended x f (mkPath (f :: l) d)) = Some (tt, this')
                 /\ last_of (commands_ this') = Some b
                 /\ Command.kind b = CLOSE
                 /\ close this' = Some (tt, this')).
    { intros x Hx Hp. eexists _, (Command.of_kind CLOSE). split; [reflexivity|].
      assert (E : commands_ (appended x f (mkPath (f :: l) d))
                  = ((f :: l) ++ [x]) ++ [Command.of_kind CLOSE]).
      { unfold appended. rewrite Hp, (proj2 (Point_eqb_eq _ _) eq_refl).
        simpl. now rewrite <- app_assoc. }
      assert (L : last_of (commands_ (appended x f (mkPath (f :: l) d)))
                  = Some (Command.of_kind CLOSE))
        by (rewrite E; apply last_of_app).
      split; [exact L|]. split; [reflexivity|].
      now apply (Hidem _ _ L). }
    destruct Hm as [<-|[<-|[<-|[]]]].
    + rewrite lineTo_run. now apply Hgen.
    + rewrite quadraticTo_run. now apply Hgen.
    + rewrite cubicTo_run. now apply Hgen.
  - intros l this' H.
    apply (calls_invariant (fun cs => (trailing_closes cs <= 1)%nat)
             call_trailing_closes l Path_new this'); [cbv; lia|exact H].
Qed.

Lemma auto_close_and_close_idempotent_witness :
  (exists this' b,
      lineTo (Vector2.mk 0 0)
        (Path_of [Command.of_point MOVE (Vector2.mk 0 0);
                  Command.of_point LINE (Vector2.mk 3 4)])
      = Some (tt, this')
      /\ last_of (commands_ this') = Some b
      /\ Command.kind b = CLOSE
      /\ close this' = Some (tt, this'))
  /\ close (Path_of [Command.of_point MOVE (Vector2.mk 0 0);
                     Command.of_kind CLOSE])
     = Some (tt, Path_of [Command.of_point MOVE (Vector2.mk 0 0);
                          Command.of_kind CLOSE])
  /\ Nat.le
       (trailing_closes
          [Command.of_point MOVE (Vector2.mk 0 0); Command.of_kind CLOSE]) 1.
Proof.
  destruct auto_close_and_close_idempotent as (H1 & H2 & H3).
  split; [|split].
  - apply (H1 _ (Command.of_point MOVE (Vector2.mk 0 0)) (Vector2.mk 0 0)
             (Vector2.mk 0 0) (Vector2.mk 0 0) (Vector2.mk 0 0));
      [reflexivity|reflexivity|simpl; auto].
  - apply (H2 _ (Command.of_kind CLOSE)); reflexivity.
  - apply (H3 [MoveTo (Vector2.mk 0 0); Close; Close]
              (Path_of [Command.of_point MOVE (Vector2.mk 0 0);
                        Command.of_kind CLOSE])).
    reflexivity.
Defined.

(** C6. Whatever builder calls are run from the empty path, if they all
    return (so no [close()] met an empty path), the first command of the
    result is a MOVE, the one result without a first command being the empty
    path of no call at all; and [lineTo], [quadraticTo] and [cubicTo] on the
    empty path leave the single command MOVE at the terminal point, the
    control points being dropped. *)
Theorem first_command_is_move :
  (forall l this',
      exec (calls l) Path_new = Some this' ->
      (l = [] /\ commands_ this' = [])
      \/ exists c cs, commands_ this' = c :: cs /\ Command.kind c = MOVE)
  /\ (forall pt c c1 c2,
        lineTo pt Path_new = Some (tt, Path_of [Command.of_point MOVE pt])
        /\ quadraticTo c pt Path_new
           = Some (tt, Path_of [Command.of_point MOVE pt])
        /\ cubicTo c1 c2 pt Path_new
           = Some (tt, Path_of [Command.of_point MOVE pt])).
Proof.
  split; [|intros; repeat split; reflexivity].
  intros [|c l] this' H; [injection H as <-; now left|right].
  unfold exec in H. simpl in H. unfold bind in H.
  destruct (call c Path_new) as [[[] this1]|] eqn:E; [|discriminate].
  assert (H1 : starts_with_move (commands_ this1))
    by (apply (call_starts_with_move c Path_new); [now left|exact E]).
  assert (H2 : starts_with_move (commands_ this')).
  { apply (calls_invariant starts_with_move) with (l := l) (this := this1);
      [|exact H1|exact H].
    intros c0 t t' Ht. apply call_starts_with_move. now right. }
  destruct (commands_ this') as [|x xs]; [contradiction|]. now exists x, xs.
Qed.

Lemma first_command_is_move_witness :
  ([CubicTo (Vector2.mk 9 9) (Vector2.mk 8 8) (Vector2.mk 5 6);
    QuadraticTo (Vector2.mk 1 1) (Vector2.mk 7 8); Close] = []
   /\ commands_
        (Path_of [Command.of_point MOVE (Vector2.mk 5 6);
                  Command.of_control QUADRATIC (Vector2.mk 1 1) (Vector2.mk 7 8);
                  Command.of_kind CLOSE]) = [])
  \/ exists c cs,
       commands_
         (Path_of [Command.of_point MOVE (Vector2.mk 5 6);
                   Command.of_control QUADRATIC (Vector2.mk 1 1) (Vector2.mk 7 8);
                   Command.of_kind CLOSE]) = c :: cs
       /\ Command.kind c = MOVE.
Proof.
  apply (proj1 first_command_is_move
           [CubicTo (Vector2.mk 9 9) (Vector2.mk 8 8) (Vector2.mk 5 6);
            QuadraticTo (Vector2.mk 1 1) (Vector2.mk 7 8); Close]).
  reflexivity.
Defined.

(** ** Bounds *)

Section Bounds.

Lemma fold_point_running (v : Point) (e : Extent) : fold_point v e = running e v.
Proof.
  unfold fold_point, running. f_equal.
  - destruct (Z.ltb_spec (Vector2.x v) (min_x e)); lia.
  - destruct (Z.ltb_spec (Vector2.y v) (min_y e)); lia.
  - rewrite Z.gtb_ltb. destruct (Z.ltb_spec (max_x e) (Vector2.x v)); lia.
  - rewrite Z.gtb_ltb. destruct (Z.ltb_spec (max_y e) (Vector2.y v)); lia.
Qed.

Lemma bounds_switch_points (e : Extent) (c : Command) :
  bounds_switch e c = fold_left running (bounds_points c) e.
Proof.
  unfold bounds_switch, bounds_points, Command.type, case_CUBIC, case_QUADRATIC,
    case_MOVE_LINE.
  destruct (Command.kind c); simpl; now rewrite ?fold_point_running.
Qed.

Lemma bounds_scan (cs : list Command) (e : Extent) :
  fold_left bounds_switch cs e = fold_left running (flat_map bounds_points cs) e.
Proof.
  revert e. induction cs as [|c cs IH]; intros e; [reflexivity|].
  simpl. now rewrite fold_left_app, IH, bounds_switch_points.
Qed.

Lemma bounds_run (this : Path) :
  bounds this
  = Some (bounds_of_points (flat_map bounds_points (commands_ this)), this).
Proof.
  unfold bounds, bind, commands, ret. now rewrite bounds_scan.
Qed.

(** A coordinate that is itself the sentinel leaves the accumulator at the
    sentinel, and the final test turns it into zero as well. *)
Example bounds_of_sentinel_coordinate :
  eval bounds (Path_of [Command.of_point MOVE (Vector2.mk numeric_limits_max 5)])
  = Some (Rect.mk (Vector2.mk 0 5) (Vector2.mk numeric_limits_max 5)).
Proof. reflexivity. Qed.

End Bounds.

(** C5, as the code has it.  [bounds()] is the per-axis running minimum and
    maximum, started at the sentinels, over the points control2, control,
    point of every CUBIC, control, point of every QUADRATIC and point of
    every MOVE and LINE, a CLOSE giving none, with every extreme whose value
    is that of its sentinel replaced by zero, on every path; when no point
    is folded, as on the empty path, that is the rectangle at the origin of
    width and height zero. *)
Theorem bounds_is_running_extent_of_points :
  (forall this,
      bounds this
      = Some (bounds_of_points (flat_map bounds_points (commands_ this)), this))
  /\ (forall this,
        flat_map bounds_points (commands_ this) = [] ->
        exists r,
          bounds this = Some (r, this)
          /\ r = Rect.mk Vector2.zero Vector2.zero
          /\ Rect.width r = 0 /\ Rect.height r = 0)
  /\ bounds Path_new = Some (Rect.mk Vector2.zero Vector2.zero, Path_new).
Proof.
  split; [exact bounds_run|split].
  - intros this H. eexists. rewrite bounds_run, H. repeat split.
  - reflexivity.
Qed.

Lemma bounds_is_running_extent_of_points_witness :
  exists r,
    bounds (Path_of [Command.of_kind CLOSE; Command.of_kind CLOSE])
    = Some (r, Path_of [Command.of_kind CLOSE; Command.of_kind CLOSE])
    /\ r = Rect.mk Vector2.zero Vector2.zero
    /\ Rect.width r = 0 /\ Rect.height r = 0.
Proof.
  apply (proj1 (proj2 bounds_is_running_extent_of_points)
           (Path_of [Command.of_kind CLOSE; Command.of_kind CLOSE])).
  reflexivity.
Defined.

(** C5, as stated, fails on MOVE(max,5), LINE(max,7), [max] the largest
    [int]: two points are folded, the running minimum of their [x] is [max],
    and [bounds()] returns 0 for it, the test after the loop comparing
    values. *)
Lemma bounds_replaces_a_folded_extreme :
  flat_map bounds_points
    [Command.of_point MOVE (Vector2.mk numeric_limits_max 5);
     Command.of_point LINE (Vector2.mk numeric_limits_max 7)]
  = [Vector2.mk numeric_limits_max 5; Vector2.mk numeric_limits_max 7]
  /\ min_x (fold_left running
              [Vector2.mk numeric_limits_max 5; Vector2.mk numeric_limits_max 7]
              Extent_init) = numeric_limits_max
  /\ eval bounds
       (Path_of [Command.of_point MOVE (Vector2.mk numeric_limits_max 5);
                 Command.of_point LINE (Vector2.mk numeric_limits_max 7)])
     = Some (Rect.mk (Vector2.mk 0 5) (Vector2.mk numeric_limits_max 7))
  /\ 0 <> numeric_limits_max.
Proof. repeat split. discriminate. Qed.

(** ** Direction *)

Section DirectionLoop.

Variable NDEBUG : bool.

(** The loop only computes: it returns the same sum on every receiver and
    hands the receiver back. *)
Lemma direction_loop_frame (rest : list Command) :
  forall (front first : Command) (sum : T) (this : Path),
    direction_loop NDEBUG front first rest sum this
    = match eval (direction_loop NDEBUG front first rest sum) Path_new with
      | Some v => Some (v, this)
      | None => None
      end.
Proof.
  induction rest as [|second rest IH]; intros front first sum this;
    [reflexivity|].
  unfold eval. simpl. unfold Command.type.
  destruct (Command.kind second);
    try (rewrite (IH _ _ _ this); unfold eval; reflexivity).
  unfold bind, assert. destruct NDEBUG; simpl; [|reflexivity].
  rewrite (IH _ _ _ this). unfold eval. reflexivity.
Qed.

Lemma direction_run (this : Path) :
  direction NDEBUG this
  = if (length (commands_ this) <? 3)%nat then Some (UNDEFINED, this)
    else match direction_sum NDEBUG (commands_ this) with
         | Some sum =>
             Some (if sum <? 0 then COUNTER_CLOCKWISE else CLOCKWISE, this)
         | None => None
         end.
Proof.
  unfold direction, bind, size, commands, ret. simpl.
  destruct (length (commands_ this) <? 3)%nat eqn:E; [reflexivity|].
  destruct (commands_ this) as [|first rest]; [discriminate|].
  unfold direction_sum. rewrite direction_loop_frame.
  destruct (eval _ Path_new); reflexivity.
Qed.

(** The loop runs to its end unless an [assert] stops it. *)
Lemma direction_loop_returns (rest : list Command) :
  NDEBUG = true \/ Forall (fun c => Command.kind c <> MOVE) rest ->
  forall (front first : Command) (sum : T),
    exists v, eval (direction_loop NDEBUG front first rest sum) Path_new = Some v.
Proof.
  intros H. induction rest as [|second rest IH]; intros front first sum.
  - now exists sum.
  - assert (H' : NDEBUG = true \/ Forall (fun c => Command.kind c <> MOVE) rest).
    { destruct H as [H|H]; [now left|right; now inversion H]. }
    specialize (IH H'). unfold eval. simpl. unfold Command.type.
    destruct (Command.kind second) eqn:K; try apply IH.
    destruct H as [->|H]; [|inversion H; contradiction].
    unfold bind, assert. simpl. apply IH.
Qed.

(** The sum is an [int] all along. *)
Lemma direction_loop_range (rest : list Command) :
  forall (front first : Command) (sum v : T),
    int_wrap sum = sum ->
    eval (direction_loop NDEBUG front first rest sum) Path_new = Some v ->
    int_wrap v = v.
Proof.
  induction rest as [|second rest IH]; intros front first sum v Hsum.
  - intros [= <-]. exact Hsum.
  - unfold eval in *. simpl direction_loop. unfold Command.type.
    destruct (Command.kind second);
      try (apply IH; unfold int_add; apply int_wrap_idem).
    unfold bind, assert. destruct NDEBUG; simpl; [now apply IH|discriminate].
Qed.

(** Over LINE, QUADRATIC and CUBIC commands the loop adds up the chain of
    the on-curve points, reduced to an [int]. *)
Lemma direction_loop_segments (rest : list Command) :
  Forall (fun c => is_segment c = true) rest ->
  forall (front first : Command) (sum : T),
    int_wrap sum = sum ->
    eval (direction_loop NDEBUG front first rest sum) Path_new
    = Some (int_wrap
              (sum + chain (Command.point first :: map Command.point rest))).
Proof.
  induction 1 as [|second rest Hs _ IH]; intros front first sum Hsum.
  - unfold eval. simpl. now rewrite Z.add_0_r, Hsum.
  - unfold eval in *. simpl direction_loop. unfold is_segment in Hs.
    unfold Command.type.
    destruct (Command.kind second); try discriminate;
      rewrite int_add_cross, IH by apply int_wrap_idem;
      rewrite int_wrap_add_l; f_equal; f_equal; simpl chain; lia.
Qed.

End DirectionLoop.

(** C4, as the code has it.  [direction()] is UNDEFINED on fewer than 3
    commands.  On 3 commands or more, when no [assert] stops the loop, that
    is in a release build or when no command after the first is a MOVE, the
    loop ends with an [int] sum, and the answer is COUNTER_CLOCKWISE when
    [sum < 0] and CLOCKWISE when [0 <= sum], zero included, hence never
    UNDEFINED; when the commands after the first are LINE, QUADRATIC and
    CUBIC commands that sum is the chain of cross products of the on-curve
    points reduced to an [int].  In a debug build a MOVE after the first
    command stops the call at [assert(false)]. *)
Theorem direction_sign_convention (NDEBUG : bool) (this : Path) :
  ((length (commands_ this) < 3)%nat ->
   direction NDEBUG this = Some (UNDEFINED, this))
  /\ ((3 <= length (commands_ this))%nat ->
      NDEBUG = true
      \/ Forall (fun c => Command.kind c <> MOVE) (tl (commands_ this)) ->
      exists sum,
        direction_sum NDEBUG (commands_ this) = Some sum
        /\ numeric_limits_lowest <= sum <= numeric_limits_max
        /\ (sum < 0 -> direction NDEBUG this = Some (COUNTER_CLOCKWISE, this))
        /\ (0 <= sum -> direction NDEBUG this = Some (CLOCKWISE, this)))
  /\ ((3 <= length (commands_ this))%nat ->
      Forall (fun c => is_segment c = true) (tl (commands_ this)) ->
      direction_sum NDEBUG (commands_ this)
      = Some (int_wrap (chain (map Command.point (commands_ this)))))
  /\ ((3 <= length (commands_ this))%nat ->
      NDEBUG = false ->
      Exists (fun c => Command.kind c = MOVE) (tl (commands_ this)) ->
      direction NDEBUG this = None).
Proof.
  rewrite direction_run. split; [|split; [|split]].
  - intros H. apply Nat.ltb_lt in H. now rewrite H.
  - intros H Hok. apply Nat.ltb_ge in H. rewrite H.
    destruct (commands_ this) as [|first rest]; [discriminate|].
    destruct (direction_loop_returns NDEBUG rest Hok first first T_zero)
      as [sum Hsum].
    exists sum. unfold direction_sum. rewrite Hsum.
    pose proof (direction_loop_range NDEBUG rest first first T_zero sum
                  eq_refl Hsum) as Hr.
    pose proof (int_wrap_range sum) as Hb. rewrite Hr in Hb.
    unfold numeric_limits_lowest, numeric_limits_max.
    split; [reflexivity|split; [lia|split; intros Hs]].
    + apply Z.ltb_lt in Hs. now rewrite Hs.
    + apply Z.ltb_ge in Hs. now rewrite Hs.
  - intros H Hsegs.
    destruct (commands_ this) as [|first rest]; [simpl in H; lia|].
    unfold direction_sum. simpl tl in Hsegs.
    now rewrite (direction_loop_segments NDEBUG rest Hsegs first first T_zero eq_refl).
  - intros H -> Hm. apply Nat.ltb_ge in H. rewrite H.
    destruct (commands_ this) as [|first rest]; [discriminate|].
    simpl tl in Hm. unfold direction_sum.
    assert (Hnone : forall front f sum,
               eval (direction_loop false front f rest sum) Path_new = None).
    { clear H. induction Hm as [second rest Hk|second rest _ IH];
        intros front f sum; unfold eval in *; simpl direction_loop;
        unfold Command.type.
      - rewrite Hk. reflexivity.
      - destruct (Command.kind second); try apply IH. reflexivity. }
    now rewrite Hnone.
Qed.

Lemma direction_sign_convention_witness :
  direction false (Path_of [Command.of_point MOVE (Vector2.mk 0 0);
                            Command.of_point LINE (Vector2.mk 1 0)])
  = Some (UNDEFINED, Path_of [Command.of_point MOVE (Vector2.mk 0 0);
                              Command.of_point LINE (Vector2.mk 1 0)])
  /\ (exists sum,
        direction_sum false
          (commands_ (Path_of [Command.of_point MOVE (Vector2.mk 1 0);
                               Command.of_point LINE (Vector2.mk 1 1500000000);
                               Command.of_point LINE (Vector2.mk 0 1000000000)]))
        = Some sum
        /\ numeric_limits_lowest <= sum <= numeric_limits_max
        /\ (sum < 0 ->
            direction false
              (Path_of [Command.of_point MOVE (Vector2.mk 1 0);
                        Command.of_point LINE (Vector2.mk 1 1500000000);
                        Command.of_point LINE (Vector2.mk 0 1000000000)])
            = Some (COUNTER_CLOCKWISE,
                    Path_of [Command.of_point MOVE (Vector2.mk 1 0);
                             Command.of_point LINE (Vector2.mk 1 1500000000);
                             Command.of_point LINE (Vector2.mk 0 1000000000)]))
        /\ (0 <= sum ->
            direction false
              (Path_of [Command.of_point MOVE (Vector2.mk 1 0);
                        Command.of_point LINE (Vector2.mk 1 1500000000);
                        Command.of_point LINE (Vector2.mk 0 1000000000)])
            = Some (CLOCKWISE,
                    Path_of [Command.of_point MOVE (Vector2.mk 1 0);
                             Command.of_point LINE (Vector2.mk 1 1500000000);
                             Command.of_point LINE (Vector2.mk 0 1000000000)])))
  /\ direction_sum false
       (commands_ (Path_of [Command.of_point MOVE (Vector2.mk 0 0);
                            Command.of_point LINE (Vector2.mk 0 1);
                            Command.of_point LINE (Vector2.mk 1 1)]))
     = Some (int_wrap
               (chain (map Command.point
                         (commands_
                            (Path_of [Command.of_point MOVE (Vector2.mk 0 0);
                                      Command.of_point LINE (Vector2.mk 0 1);
                                      Command.of_point LINE (Vector2.mk 1 1)])))))
  /\ direction false (Path_of [Command.of_point MOVE (Vector2.mk 0 0);
                               Command.of_point MOVE (Vector2.mk 1 0);
                               Command.of_point LINE (Vector2.mk 1 1)])
     = None.
Proof.
  split; [|split; [|split]].
  - apply (direction_sign_convention false). simpl. lia.
  - apply (proj1 (proj2 (direction_sign_convention false
             (Path_of [Command.of_point MOVE (Vector2.mk 1 0);
                       Command.of_point LINE (Vector2.mk 1 1500000000);
                       Command.of_point LINE (Vector2.mk 0 1000000000)]))));
      [simpl; lia|].
    right. simpl. repeat constructor; discriminate.
  - apply (proj1 (proj2 (proj2 (direction_sign_convention false
             (Path_of [Command.of_point MOVE (Vector2.mk 0 0);
                       Command.of_point LINE (Vector2.mk 0 1);
                       Command.of_point LINE (Vector2.mk 1 1)])))));
      [simpl; lia|].
    simpl. repeat constructor.
  - apply (proj2 (proj2 (proj2 (direction_sign_convention false
             (Path_of [Command.of_point MOVE (Vector2.mk 0 0);
                       Command.of_point MOVE (Vector2.mk 1 0);
                       Command.of_point LINE (Vector2.mk 1 1)])))));
      [simpl; lia|reflexivity|].
    simpl. apply Exists_cons_hd. reflexivity.
Defined.

(** C4, as stated, fails in a debug build on the three commands MOVE(0,0),
    MOVE(1,0), LINE(1,1): the second MOVE meets [assert(false)] and the call
    gives no answer, neither COUNTER_CLOCKWISE nor CLOCKWISE. *)
Lemma direction_of_inner_move_in_debug_build :
  length (commands_ (Path_of [Command.of_point MOVE (Vector2.mk 0 0);
                              Command.of_point MOVE (Vector2.mk 1 0);
                              Command.of_point LINE (Vector2.mk 1 1)])) = 3%nat
  /\ direction false (Path_of [Command.of_point MOVE (Vector2.mk 0 0);
                               Command.of_point MOVE (Vector2.mk 1 0);
                               Command.of_point LINE (Vector2.mk 1 1)])
     = None.
Proof. split; reflexivity. Qed.

(** The sum on MOVE(1,0), LINE(1,1500000000), LINE(0,1000000000): the two
    cross products add up to 2500000000, which an [int] holds as
    -1794967296, and the answer is COUNTER_CLOCKWISE. *)
Example direction_of_a_sum_beyond_int :
  direction_sum false [Command.of_point MOVE (Vector2.mk 1 0);
                       Command.of_point LINE (Vector2.mk 1 1500000000);
                       Command.of_point LINE (Vector2.mk 0 1000000000)]
  = Some (-1794967296)
  /\ eval (direction false)
       (Path_of [Command.of_point MOVE (Vector2.mk 1 0);
                 Command.of_point LINE (Vector2.mk 1 1500000000);
                 Command.of_point LINE (Vector2.mk 0 1000000000)])
     = Some COUNTER_CLOCKWISE.
Proof. split; reflexivity. Qed.

(** C1. Evaluation on the triangle (0,10), (1,10), (1,11) closed by
    [close()]: for the CLOSE the loop adds the cross product of the CLOSE
    command's own stored point, the origin, with the first point, that is 0,
    and not the cross product of the previous point (1,11) with the first
    point, which is 10; the accumulated sum is -9 where the shoelace sum is
    1, and the answer is COUNTER_CLOCKWISE. *)
Theorem direction_close_term_ignores_previous_point (NDEBUG : bool) :
  exists this,
    exec (calls [MoveTo (Vector2.mk 0 10); LineTo (Vector2.mk 1 10);
                 LineTo (Vector2.mk 1 11); Close]) Path_new = Some this
    /\ direction_sum NDEBUG (commands_ this) = Some (-9)
    /\ shoelace_sum (commands_ this) = 1
    /\ eval (direction NDEBUG) this = Some COUNTER_CLOCKWISE.
Proof. eexists. split; [reflexivity|]. destruct NDEBUG; repeat split. Qed.

(** ** Reverse *)

Section StdReverse.

Context {A : Type}.

Lemma firstn_length_app (a b : list A) : firstn (length a) (a ++ b) = a.
Proof. induction a as [|x a IH]; simpl; [now destruct b|now rewrite IH]. Qed.

Lemma skipn_length_app (a b : list A) : skipn (length a) (a ++ b) = b.
Proof. induction a as [|x a IH]; simpl; auto. Qed.

Lemma std_reverse_app (a b c : list A) :
  std_reverse (length a) (length a + length b) (a ++ b ++ c)
  = Some (a ++ rev b ++ c).
Proof.
  unfold std_reverse.
  replace (length a <=? length a + length b)%nat with true
    by (symmetry; apply Nat.leb_le; lia).
  replace (length a + length b <=? length (a ++ b ++ c))%nat with true
    by (symmetry; apply Nat.leb_le; rewrite !length_app; lia).
  cbn [andb]. rewrite firstn_length_app, (skipn_length_app a (b ++ c)).
  replace (length a + length b - length a)%nat with (length b) by lia.
  rewrite firstn_length_app.
  replace (skipn (length a + length b) (a ++ b ++ c)) with c; [reflexivity|].
  rewrite <- length_app, (app_assoc a b c). symmetry. apply skipn_length_app.
Qed.

(** The two ranges [reverse] uses. *)
Lemma std_reverse_open (c0 : A) (tl : list A) :
  std_reverse 1 (length (c0 :: tl)) (c0 :: tl) = Some (c0 :: rev tl).
Proof.
  pose proof (std_reverse_app [c0] tl []) as H.
  rewrite !app_nil_r in H. exact H.
Qed.

Lemma std_reverse_closed (c0 cl : A) (mid : list A) :
  std_reverse 1 (Nat.pred (length (c0 :: mid ++ [cl]))) (c0 :: mid ++ [cl])
  = Some (c0 :: rev mid ++ [cl]).
Proof.
  pose proof (std_reverse_app [c0] mid [cl]) as H.
  replace (Nat.pred (length (c0 :: mid ++ [cl])))
    with (length [c0] + length mid)%nat
    by (simpl; rewrite length_app; simpl; lia).
  exact H.
Qed.

Lemma length_flat_map_rev {B} (f : A -> list B) (l : list A) :
  length (flat_map f (rev l)) = length (flat_map f l).
Proof.
  induction l as [|x l IH]; [reflexivity|].
  simpl. rewrite flat_map_app, !length_app, IH. simpl. rewrite app_nil_r. lia.
Qed.

End StdReverse.

Section Reverse.

Variable NDEBUG : bool.

Lemma reverse_run (this : Path) :
  reverse NDEBUG this
  = match last_of (commands_ this) with
    | None => None
    | Some b =>
        match (if is_close b
               then std_reverse 1 (Nat.pred (length (commands_ this)))
                      (commands_ this)
               else std_reverse 1 (length (commands_ this)) (commands_ this))
        with
        | None => None
        | Some cs =>
            finish NDEBUG (direction_ this)
              (reassign cs (rev (flat_map collect (commands_ this))))
        end
    end.
Proof.
  cbv [reverse bind back commands lift is_close Command.type finish
       set_commands assert ret fault].
  destruct (last_of (commands_ this)) as [b|]; [|reflexivity].
  destruct (if Command.Kind_eqb (Command.kind b) CLOSE then _ else _)
    as [cs|]; [|reflexivity].
  destruct (reassign cs _) as [[cs' itr]|]; [|reflexivity].
  simpl. destruct (NDEBUG || _); reflexivity.
Qed.

Lemma reverse_keeps_direction_ (this this' : Path) :
  reverse NDEBUG this = Some (tt, this') -> direction_ this' = direction_ this.
Proof.
  rewrite reverse_run. destruct (last_of (commands_ this)); [|discriminate].
  destruct (if is_close c then _ else _); [|discriminate].
  unfold finish. destruct (reassign l _) as [[cs itr]|]; [|discriminate].
  destruct (NDEBUG || _); [|discriminate]. intros [= <-]. reflexivity.
Qed.

Lemma reverse_open (c0 b : Command) (tl : list Command) (d : Direction) :
  last_of (c0 :: tl) = Some b -> is_close b = false ->
  reverse NDEBUG (mkPath (c0 :: tl) d)
  = finish NDEBUG d (reassign (c0 :: rev tl) (rev (flat_map collect (c0 :: tl)))).
Proof.
  intros Hb Hc. rewrite reverse_run. simpl commands_. simpl direction_.
  rewrite Hb, Hc, std_reverse_open. reflexivity.
Qed.

Lemma reverse_closed (c0 cl : Command) (mid : list Command) (d : Direction) :
  is_close cl = true ->
  reverse NDEBUG (mkPath (c0 :: mid ++ [cl]) d)
  = finish NDEBUG d
      (reassign (c0 :: rev mid ++ [cl])
         (rev (flat_map collect (c0 :: mid ++ [cl])))).
Proof.
  intros Hc. rewrite reverse_run. simpl commands_. simpl direction_.
  change (c0 :: mid ++ [cl]) with ((c0 :: mid) ++ [cl]) at 1.
  rewrite last_of_app, Hc, std_reverse_closed. reflexivity.
Qed.

(** *** The second loop *)

Lemma kind_blank (c : Command) : Command.kind (blank c) = Command.kind c.
Proof. unfold blank. destruct c as [[] c1 c2 p]; reflexivity. Qed.

Lemma is_close_blank (c d : Command) : blank c = blank d -> is_close c = is_close d.
Proof.
  intros H. unfold is_close. now rewrite <- (kind_blank c), H, kind_blank.
Qed.

Lemma length_collect_blank (c d : Command) :
  blank c = blank d -> length (collect c) = length (collect d).
Proof.
  intros H. pose proof (f_equal Command.kind H) as K. rewrite !kind_blank in K.
  unfold collect, Command.type. rewrite K. destruct (Command.kind d); reflexivity.
Qed.

(** A command handed the points of a command it agrees with outside of these
    points becomes that command. *)
Lemma assign_collect (c c0 : Command) (rest : list Point) :
  blank c = blank c0 -> assign c (collect c0 ++ rest) = Some (c0, rest).
Proof.
  destruct c as [k c1 c2 p], c0 as [k0 d1 d2 q].
  unfold blank, assign, collect, Command.type, Command.set_point,
    Command.set_control1, Command.set_control2.
  destruct k, k0; simpl; intros H; try discriminate;
    try (injection H; intros; subst); reflexivity.
Qed.

Lemma reassign_collect (cs : list Command) :
  forall (cs0 : list Command) (rest : list Point),
    map blank cs = map blank cs0 ->
    reassign cs (flat_map collect cs0 ++ rest) = Some (cs0, rest).
Proof.
  induction cs as [|c cs IH]; intros [|c0 cs0] rest H; try discriminate;
    [reflexivity|].
  injection H as Hc Hcs. simpl. rewrite <- app_assoc.
  rewrite (assign_collect _ _ _ Hc), (IH _ _ Hcs). reflexivity.
Qed.

(** With enough points left, a command takes as many as it collects and
    keeps the rest of itself. *)
Lemma assign_enough (c : Command) (itr : list Point) :
  (length (collect c) <= length itr)%nat ->
  exists c',
    assign c itr = Some (c', skipn (length (collect c)) itr)
    /\ blank c' = blank c
    /\ collect c' = firstn (length (collect c)) itr.
Proof.
  destruct c as [k c1 c2 p].
  unfold assign, collect, blank, Command.type. simpl Command.kind.
  destruct k; simpl length; intros H.
  - destruct itr as [|a itr]; [simpl in H; lia|]. eexists; repeat split.
  - destruct itr as [|a itr]; [simpl in H; lia|]. eexists; repeat split.
  - destruct itr as [|a [|b itr]]; try (simpl in H; lia). eexists; repeat split.
  - destruct itr as [|a [|b [|e itr]]]; try (simpl in H; lia).
    eexists; repeat split.
  - eexists; repeat split.
Qed.

Lemma reassign_enough (cs : list Command) :
  forall itr : list Point,
    (length (flat_map collect cs) <= length itr)%nat ->
    exists cs',
      reassign cs itr = Some (cs', skipn (length (flat_map collect cs)) itr)
      /\ map blank cs' = map blank cs
      /\ flat_map collect cs' = firstn (length (flat_map collect cs)) itr.
Proof.
  induction cs as [|c cs IH]; intros itr H.
  - exists []. repeat split.
  - simpl in H. rewrite length_app in H.
    destruct (assign_enough c itr) as (c' & Ha & Hb & Hc); [lia|].
    destruct (IH (skipn (length (collect c)) itr)) as (cs' & Hr & Hbs & Hcs).
    { rewrite length_skipn. lia. }
    exists (c' :: cs'). simpl. rewrite Ha, Hr, Hb, Hbs, Hc, Hcs, length_app.
    repeat split.
    + now rewrite skipn_skipn, Nat.add_comm.
    + rewrite <- (firstn_skipn (length (collect c)) itr) at 3.
      rewrite firstn_app, firstn_firstn, length_firstn.
      replace (Nat.min (length (collect c) + length (flat_map collect cs))
                 (length (collect c))) with (length (collect c)) by lia.
      replace (length (collect c) + length (flat_map collect cs)
               - Nat.min (length (collect c)) (length itr))%nat
        with (length (flat_map collect cs)) by lia.
      reflexivity.
Qed.

(** [reverse] returns as soon as the pinned reversal kept the number of
    points, and then the points of the result are those of the receiver in
    reverse. *)
Lemma finish_enough (d : Direction) (cs cs1 : list Command) :
  length (flat_map collect cs1) = length (flat_map collect cs) ->
  exists X,
    finish NDEBUG d (reassign cs1 (rev (flat_map collect cs)))
    = Some (tt, mkPath X d)
    /\ map blank X = map blank cs1
    /\ flat_map collect X = rev (flat_map collect cs).
Proof.
  intros H.
  destruct (reassign_enough cs1 (rev (flat_map collect cs))) as (X & Hr & Hb & Hc).
  { rewrite length_rev. lia. }
  exists X. rewrite Hr, H, <- (length_rev (flat_map collect cs)), skipn_all.
  rewrite H, <- (length_rev (flat_map collect cs)), firstn_all in Hc.
  unfold finish. rewrite orb_true_r. auto.
Qed.

Lemma finish_target (d : Direction) (cs cs1 X : list Command) :
  map blank cs1 = map blank X ->
  flat_map collect X = rev (flat_map collect cs) ->
  finish NDEBUG d (reassign cs1 (rev (flat_map collect cs)))
  = Some (tt, mkPath X d).
Proof.
  intros Hb Hc. rewrite <- Hc, <- (app_nil_r (flat_map collect X)).
  rewrite (reassign_collect _ _ _ Hb). unfold finish. now rewrite orb_true_r.
Qed.

End Reverse.

Section ReverseTwice.

Variable NDEBUG : bool.

Lemma reverse_stable_cases (cs : list Command) :
  reverse_stable cs = true ->
  (exists c0 tl b,
      cs = c0 :: tl /\ last_of cs = Some b /\ is_close b = false
      /\ (tl = [] \/ exists c1 tl', tl = c1 :: tl' /\ is_close c1 = false))
  \/ (exists c0 mid cl, cs = c0 :: mid ++ [cl] /\ is_close cl = true).
Proof.
  destruct cs as [|c0 tl]; [discriminate|].
  destruct tl as [|c1 tl'].
  - simpl. intros H. left. exists c0, [], c0.
    repeat split; [now destruct (is_close c0)|now left].
  - unfold reverse_stable. destruct (last_of (c0 :: c1 :: tl')) as [b|] eqn:Hb;
      [|discriminate].
    destruct (is_close b) eqn:Hc; simpl; intros H.
    + right. destruct (exists_last (l := c1 :: tl')) as (mid & cl & E);
        [discriminate|].
      rewrite E in *. change (c0 :: mid ++ [cl]) with ((c0 :: mid) ++ [cl]) in Hb.
      rewrite last_of_app in Hb. injection Hb as ->. now exists c0, mid, b.
    + left. exists c0, (c1 :: tl'), b. repeat split; trivial.
      right. exists c1, tl'. split; [reflexivity|now destruct (is_close c1)].
Qed.

Lemma length_collect_pinned_open (c0 : Command) (tl : list Command) :
  length (flat_map collect (c0 :: rev tl)) = length (flat_map collect (c0 :: tl)).
Proof. simpl. now rewrite !length_app, length_flat_map_rev. Qed.

Lemma length_collect_pinned_closed (c0 cl : Command) (mid : list Command) :
  length (flat_map collect (c0 :: rev mid ++ [cl]))
  = length (flat_map collect (c0 :: mid ++ [cl])).
Proof.
  simpl. now rewrite !flat_map_app, !length_app, length_flat_map_rev.
Qed.

(** On a stable vector [reverse] returns, and a second [reverse] gives the
    vector back. *)
Lemma reverse_twice (cs : list Command) (d : Direction) :
  reverse_stable cs = true ->
  exists X,
    reverse NDEBUG (mkPath cs d) = Some (tt, mkPath X d)
    /\ reverse NDEBUG (mkPath X d) = Some (tt, mkPath cs d).
Proof.
  intros H. apply reverse_stable_cases in H.
  destruct H as [(c0 & tl & b & -> & Hb & Hc & Htl)|(c0 & mid & cl & -> & Hc)].
  - rewrite (reverse_open NDEBUG c0 b tl d Hb Hc).
    destruct (finish_enough NDEBUG d (c0 :: tl) (c0 :: rev tl)
                (length_collect_pinned_open c0 tl)) as (X & HX & HbX & HcX).
    exists X. split; [exact HX|].
    destruct X as [|x0 X']; [discriminate|]. injection HbX as H0 HbX.
    assert (Hlast : exists bx, last_of (x0 :: X') = Some bx /\ is_close bx = false).
    { destruct Htl as [->|(c1 & tl' & -> & Hc1)].
      - destruct X'; [|discriminate]. exists x0. split; [reflexivity|].
        injection Hb as <-. now rewrite (is_close_blank _ _ H0).
      - simpl rev in HbX. rewrite map_app in HbX.
        apply map_eq_app in HbX as (xm & xl & -> & _ & Hl).
        destruct xl as [|xl [|]]; try discriminate. injection Hl as Hl.
        exists xl. split; [|now rewrite (is_close_blank _ _ Hl)].
        change (x0 :: xm ++ [xl]) with ((x0 :: xm) ++ [xl]). apply last_of_app. }
    destruct Hlast as (bx & Hbx & Hcx).
    rewrite (reverse_open NDEBUG x0 bx X' d Hbx Hcx). apply finish_target.
    + simpl. now rewrite map_rev, HbX, map_rev, rev_involutive, H0.
    + now rewrite HcX, rev_involutive.
  - rewrite (reverse_closed NDEBUG c0 cl mid d Hc).
    destruct (finish_enough NDEBUG d (c0 :: mid ++ [cl]) (c0 :: rev mid ++ [cl])
                (length_collect_pinned_closed c0 cl mid)) as (X & HX & HbX & HcX).
    exists X. split; [exact HX|].
    destruct X as [|x0 X']; [discriminate|]. injection HbX as H0 HbX.
    rewrite map_app in HbX. apply map_eq_app in HbX as (xm & xl & -> & Hm & Hl).
    destruct xl as [|xl [|]]; try discriminate. injection Hl as Hl.
    assert (Hcx : is_close xl = true) by now rewrite (is_close_blank _ _ Hl).
    rewrite (reverse_closed NDEBUG x0 xl xm d Hcx). apply finish_target.
    + simpl. rewrite !map_app, map_rev, Hm, map_rev, rev_involutive, H0.
      simpl. now rewrite Hl.
    + now rewrite HcX, rev_involutive.
Qed.

End ReverseTwice.

(** C2, as the code has it.  For every path that is not empty, is not the
    lone command CLOSE, and whose second command is a CLOSE only if its
    last command is one, [reversed()] returns, [reversed()] of the result
    returns the path itself, and [operator==] says so. *)
Theorem reversed_twice_is_identity (NDEBUG : bool) (this : Path) :
  reverse_stable (commands_ this) = true ->
  exists q r,
    reversed NDEBUG this = Some (q, this)
    /\ reversed NDEBUG q = Some (r, q)
    /\ r = this
    /\ Path_eqb r this = true.
Proof.
  intros H. destruct this as [cs d].
  destruct (reverse_twice NDEBUG cs d H) as (X & H1 & H2).
  exists (mkPath X d), (mkPath cs d). unfold reversed. rewrite H1, H2.
  repeat split. apply commands_eqb_refl.
Qed.

Lemma reversed_twice_is_identity_witness :
  exists q r,
    reversed false
      (Path_of [Command.of_point MOVE (Vector2.mk 0 0);
                Command.of_controls CUBIC (Vector2.mk 1 1) (Vector2.mk 2 2)
                  (Vector2.mk 3 3);
                Command.of_point LINE (Vector2.mk 0 0);
                Command.of_kind CLOSE])
    = Some (q, Path_of [Command.of_point MOVE (Vector2.mk 0 0);
                        Command.of_controls CUBIC (Vector2.mk 1 1) (Vector2.mk 2 2)
                          (Vector2.mk 3 3);
                        Command.of_point LINE (Vector2.mk 0 0);
                        Command.of_kind CLOSE])
    /\ reversed false q = Some (r, q)
    /\ r = Path_of [Command.of_point MOVE (Vector2.mk 0 0);
                    Command.of_controls CUBIC (Vector2.mk 1 1) (Vector2.mk 2 2)
                      (Vector2.mk 3 3);
                    Command.of_point LINE (Vector2.mk 0 0);
                    Command.of_kind CLOSE]
    /\ Path_eqb r
         (Path_of [Command.of_point MOVE (Vector2.mk 0 0);
                   Command.of_controls CUBIC (Vector2.mk 1 1) (Vector2.mk 2 2)
                     (Vector2.mk 3 3);
                   Command.of_point LINE (Vector2.mk 0 0);
                   Command.of_kind CLOSE]) = true.
Proof. apply (reversed_twice_is_identity false). reflexivity. Defined.

(** C2, as stated, fails on the path built by [moveTo(1,2)], [close()],
    [lineTo(3,4)]: the first [reversed()] moves the CLOSE to the back, the
    second one then pins it there. *)
Lemma reversed_twice_moves_inner_close :
  exec (calls [MoveTo (Vector2.mk 1 2); Close; LineTo (Vector2.mk 3 4)]) Path_new
  = Some (Path_of [Command.of_point MOVE (Vector2.mk 1 2);
                   Command.of_kind CLOSE;
                   Command.of_point LINE (Vector2.mk 3 4)])
  /\ eval (reversed false)
       (Path_of [Command.of_point MOVE (Vector2.mk 1 2);
                 Command.of_kind CLOSE;
                 Command.of_point LINE (Vector2.mk 3 4)])
     = Some (Path_of [Command.of_point MOVE (Vector2.mk 3 4);
                      Command.of_point LINE (Vector2.mk 1 2);
                      Command.of_kind CLOSE])
  /\ eval (reversed false)
       (Path_of [Command.of_point MOVE (Vector2.mk 3 4);
                 Command.of_point LINE (Vector2.mk 1 2);
                 Command.of_kind CLOSE])
     = Some (Path_of [Command.of_point MOVE (Vector2.mk 1 2);
                      Command.of_point LINE (Vector2.mk 3 4);
                      Command.of_kind CLOSE])
  /\ Path_eqb
       (Path_of [Command.of_point MOVE (Vector2.mk 1 2);
                 Command.of_point LINE (Vector2.mk 3 4);
                 Command.of_kind CLOSE])
       (Path_of [Command.of_point MOVE (Vector2.mk 1 2);
                 Command.of_kind CLOSE;
                 Command.of_point LINE (Vector2.mk 3 4)]) = false.
Proof. repeat split. Qed.

(** ** Chains of cross products and segments turned round *)

Section ReversedDirection.

Variable NDEBUG : bool.

Lemma cross_antisym (a b : Point) :
  Vector2.cross_exact a b = - Vector2.cross_exact b a.
Proof. unfold Vector2.cross_exact. lia. Qed.

Lemma chain_snoc (l : list Point) (a : Point) :
  chain (l ++ [a])
  = chain l
    + match last_of l with Some b => Vector2.cross_exact b a | None => 0 end.
Proof.
  induction l as [|p l IH]; [reflexivity|].
  destruct l as [|q l]; [simpl; lia|].
  change (chain ((p :: q :: l) ++ [a]))
    with (Vector2.cross_exact p q + chain ((q :: l) ++ [a])).
  rewrite IH, last_of_cons.
  change (chain (p :: q :: l)) with (Vector2.cross_exact p q + chain (q :: l)).
  destruct (last_of (q :: l)); lia.
Qed.

Lemma chain_rev (l : list Point) : chain (rev l) = - chain l.
Proof.
  induction l as [|p l IH]; [reflexivity|].
  simpl rev. rewrite chain_snoc, IH, last_of_rev, rev_involutive.
  destruct l as [|q l]; [reflexivity|].
  cbn [hd_error].
  change (chain (p :: q :: l)) with (Vector2.cross_exact p q + chain (q :: l)).
  rewrite (cross_antisym q p). lia.
Qed.

(** *** Turning the segments round *)

Lemma flip_collect (segs : list Command) :
  Forall (fun c => is_segment c = true) segs ->
  forall (s : Point) (acc : list Command),
    fst (flip s segs acc) :: flat_map collect (snd (flip s segs acc))
    = rev (flat_map collect segs) ++ s :: flat_map collect acc.
Proof.
  induction 1 as [|seg segs Hs _ IH]; intros s acc; [reflexivity|].
  simpl flip. rewrite IH. simpl flat_map. rewrite rev_app_distr, <- app_assoc.
  f_equal. unfold is_segment in Hs. unfold flip_segment, collect, Command.type.
  destruct seg as [[] c1 c2 p]; try discriminate; reflexivity.
Qed.

Lemma flip_blank (segs : list Command) :
  Forall (fun c => is_segment c = true) segs ->
  forall (s : Point) (acc : list Command),
    map blank (snd (flip s segs acc)) = rev (map blank segs) ++ map blank acc.
Proof.
  induction 1 as [|seg segs Hs _ IH]; intros s acc; [reflexivity|].
  simpl flip. rewrite IH. simpl. rewrite <- app_assoc. f_equal. simpl.
  f_equal. unfold is_segment in Hs. unfold flip_segment, blank.
  destruct seg as [[] c1 c2 p]; try discriminate; reflexivity.
Qed.

Lemma flip_points (segs : list Command) :
  forall (s : Point) (acc : list Command),
    fst (flip s segs acc) :: map Command.point (snd (flip s segs acc))
    = rev (map Command.point segs) ++ s :: map Command.point acc.
Proof.
  induction segs as [|seg segs IH]; intros s acc; [reflexivity|].
  simpl flip. rewrite IH. simpl. rewrite <- app_assoc. f_equal. simpl.
  do 2 f_equal. unfold flip_segment. destruct (Command.kind seg); reflexivity.
Qed.

Lemma flip_segments (segs : list Command) :
  Forall (fun c => is_segment c = true) segs ->
  forall (s : Point) (acc : list Command),
    Forall (fun c => is_segment c = true) acc ->
    Forall (fun c => is_segment c = true) (snd (flip s segs acc)).
Proof.
  induction 1 as [|seg segs Hs _ IH]; intros s acc Hacc; [exact Hacc|].
  simpl flip. apply IH. constructor; [|exact Hacc].
  unfold is_segment in *. unfold flip_segment.
  destruct seg as [[] c1 c2 p]; try discriminate; reflexivity.
Qed.

Lemma last_of_segments (l : list Command) :
  Forall (fun c => is_segment c = true) l ->
  forall c0, is_close c0 = false ->
    exists b, last_of (c0 :: l) = Some b /\ is_close b = false.
Proof.
  induction 1 as [|c l Hs _ IH]; intros c0 H0; [now exists c0|].
  rewrite last_of_cons. apply IH. unfold is_segment in Hs. unfold is_close.
  destruct (Command.kind c); try discriminate; reflexivity.
Qed.

End ReversedDirection.

(** ** The cached direction *)

(** C10. [direction()] does not read [direction_]: on two receivers with
    the same commands it returns the same value.  It does not write it, nor
    anything else: the receiver after the call is the receiver before it.
    Two calls in a row return the same value.  No builder call and no
    [reverse()] writes the field either, so that it stays what the
    constructor made it. *)
Theorem direction_is_a_pure_query (NDEBUG : bool) (this : Path) :
  (forall d,
      eval (direction NDEBUG) (mkPath (commands_ this) d)
      = eval (direction NDEBUG) this)
  /\ (forall v this', direction NDEBUG this = Some (v, this') -> this' = this)
  /\ (forall v w this',
        (a <- direction NDEBUG ;; b <- direction NDEBUG ;; ret (a, b)) this
        = Some ((v, w), this') ->
        v = w /\ this' = this)
  /\ (forall c this',
        call c this = Some (tt, this') -> direction_ this' = direction_ this)
  /\ (forall this',
        reverse NDEBUG this = Some (tt, this') ->
        direction_ this' = direction_ this).
Proof.
  split; [|split; [|split; [|split]]].
  - intros d. unfold eval. rewrite !direction_run. simpl commands_.
    destruct (length (commands_ this) <? 3)%nat;
      [|destruct (direction_sum NDEBUG (commands_ this))]; reflexivity.
  - intros v this'. rewrite direction_run.
    destruct (length (commands_ this) <? 3)%nat;
      [|destruct (direction_sum NDEBUG (commands_ this))]; congruence.
  - intros v w this'. unfold bind, ret. rewrite direction_run.
    destruct (length (commands_ this) <? 3)%nat eqn:E.
    + rewrite direction_run, E. intros [= <- <- <-]. now split.
    + destruct (direction_sum NDEBUG (commands_ this)) eqn:S; [|discriminate].
      rewrite direction_run, E, S. intros [= <- <- <-]. now split.
  - intros c this'. apply call_keeps_direction_.
  - intros this'. apply reverse_keeps_direction_.
Qed.

Lemma direction_is_a_pure_query_witness :
  mkPath [Command.of_point MOVE (Vector2.mk 0 0);
          Command.of_point LINE (Vector2.mk 0 1);
          Command.of_point LINE (Vector2.mk 1 1)] CLOCKWISE
  = mkPath [Command.of_point MOVE (Vector2.mk 0 0);
            Command.of_point LINE (Vector2.mk 0 1);
            Command.of_point LINE (Vector2.mk 1 1)] CLOCKWISE
  /\ (COUNTER_CLOCKWISE = COUNTER_CLOCKWISE
      /\ mkPath [Command.of_point MOVE (Vector2.mk 0 0);
                 Command.of_point LINE (Vector2.mk 0 1);
                 Command.of_point LINE (Vector2.mk 1 1)] CLOCKWISE
         = mkPath [Command.of_point MOVE (Vector2.mk 0 0);
                   Command.of_point LINE (Vector2.mk 0 1);
                   Command.of_point LINE (Vector2.mk 1 1)] CLOCKWISE)
  /\ direction_
       (mkPath [Command.of_point MOVE (Vector2.mk 0 0);
                Command.of_point LINE (Vector2.mk 0 1);
                Command.of_point LINE (Vector2.mk 1 1);
                Command.of_point LINE (Vector2.mk 0 0);
                Command.of_kind CLOSE] CLOCKWISE)
     = direction_
         (mkPath [Command.of_point MOVE (Vector2.mk 0 0);
                  Command.of_point LINE (Vector2.mk 0 1);
                  Command.of_point LINE (Vector2.mk 1 1)] CLOCKWISE)
  /\ direction_
       (mkPath [Command.of_point MOVE (Vector2.mk 1 1);
                Command.of_point LINE (Vector2.mk 0 1);
                Command.of_point LINE (Vector2.mk 0 0)] CLOCKWISE)
     = direction_
         (mkPath [Command.of_point MOVE (Vector2.mk 0 0);
                  Command.of_point LINE (Vector2.mk 0 1);
                  Command.of_point LINE (Vector2.mk 1 1)] CLOCKWISE).
Proof.
  pose proof (direction_is_a_pure_query false
                (mkPath [Command.of_point MOVE (Vector2.mk 0 0);
                         Command.of_point LINE (Vector2.mk 0 1);
                         Command.of_point LINE (Vector2.mk 1 1)] CLOCKWISE))
    as (_ & H2 & H3 & H4 & H5).
  split; [|split; [|split]].
  - apply (H2 COUNTER_CLOCKWISE). reflexivity.
  - apply H3. reflexivity.
  - apply (H4 (LineTo (Vector2.mk 0 0))). reflexivity.
  - apply H5. reflexivity.
Defined.

(** * Further properties *)

(** ** What the builders keep *)

Section BuildersKeep.

Lemma is_segment_not_move (x : Command) :
  is_segment x = true -> Command.kind x <> MOVE.
Proof. unfold is_segment. destruct (Command.kind x); congruence. Qed.

Lemma is_segment_not_close (x : Command) :
  is_segment x = true -> is_close x = false.
Proof. unfold is_segment, is_close. destruct (Command.kind x); try reflexivity; discriminate. Qed.

(** A builder call on a path with first command [f] either is a [moveTo], or
    is a [close()], or appends a LINE, QUADRATIC or CUBIC command. *)
Lemma call_on_nonempty (c : Call) (f : Command) (l : list Command)
    (d : Direction) (this' : Path) :
  call c (mkPath (f :: l) d) = Some (tt, this') ->
  (exists p, c = MoveTo p /\ this' = mkPath [Command.of_point MOVE p] d)
  \/ (c = Close
      /\ exists b, last_of (f :: l) = Some b
           /\ this' = if is_close b then mkPath (f :: l) d
                      else mkPath ((f :: l) ++ [Command.of_kind CLOSE]) d)
  \/ (exists x, is_segment x = true /\ this' = appended x f (mkPath (f :: l) d)
                /\ (c = LineTo (Command.point x)
                    \/ (exists ct, c = QuadraticTo ct (Command.point x))
                    \/ exists ct1 ct2, c = CubicTo ct1 ct2 (Command.point x))).
Proof.
  destruct c; simpl call.
  - rewrite moveTo_run. intros [= <-]. left. now eexists.
  - rewrite lineTo_run. intros [= <-]. right; right. eexists. split; [|split];
      [|reflexivity|left; reflexivity]. reflexivity.
  - rewrite quadraticTo_run. intros [= <-]. right; right. eexists.
    split; [|split]; [|reflexivity|right; left; eexists; reflexivity]. reflexivity.
  - rewrite cubicTo_run. intros [= <-]. right; right. eexists.
    split; [|split]; [|reflexivity|right; right; eexists _, _; reflexivity].
    reflexivity.
  - rewrite close_run. destruct (last_of_some f l) as [b Hb]. simpl commands_.
    rewrite Hb. intros H. right; left. split; [reflexivity|]. exists b.
    split; [reflexivity|]. destruct (is_close b); now injection H as <-.
Qed.

Lemma call_on_empty (c : Call) (d : Direction) (this' : Path) :
  call c (mkPath [] d) = Some (tt, this') ->
  exists p, this' = mkPath [Command.of_point MOVE p] d.
Proof.
  destruct c; simpl; unfold lineTo, quadraticTo, cubicTo, bind, empty; simpl;
    intros [= <-]; eexists; reflexivity.
Qed.

Lemma one_move_app (cs extra : list Command) :
  cs <> [] -> one_move cs ->
  Forall (fun c => Command.kind c <> MOVE) extra ->
  one_move (cs ++ extra).
Proof.
  destruct cs as [|c l]; [contradiction|]. intros _ [Hc Hl] He.
  split; [exact Hc|]. apply Forall_app. now split.
Qed.

Lemma call_one_move (c : Call) (this this' : Path) :
  one_move (commands_ this) ->
  call c this = Some (tt, this') ->
  one_move (commands_ this').
Proof.
  destruct this as [[|f l] d]; intros Hinv H.
  - apply call_on_empty in H as [p ->]. simpl. split; [reflexivity|constructor].
  - apply call_on_nonempty in H
      as [(p & _ & ->)|[(_ & b & _ & ->)|(x & Hx & -> & _)]].
    + simpl. split; [reflexivity|constructor].
    + destruct (is_close b); [exact Hinv|].
      apply (one_move_app (f :: l) [Command.of_kind CLOSE]);
        [discriminate|exact Hinv|].
      repeat constructor. discriminate.
    + pose proof (is_segment_not_move x Hx) as Hm.
      destruct (appended_commands x f (mkPath (f :: l) d)) as [-> | ->].
      * apply (one_move_app (f :: l) [x]);
          [discriminate|exact Hinv|now repeat constructor].
      * rewrite <- app_assoc.
        apply (one_move_app (f :: l) ([x] ++ [Command.of_kind CLOSE]));
          [discriminate|exact Hinv|].
        repeat constructor; [exact Hm|discriminate].
Qed.

End BuildersKeep.

(** X1. A builder call other than [moveTo] on a non-empty path leaves every
    command the path had where it was: the commands afterwards are the
    old ones followed by at most two new ones, none of which is a MOVE. *)
Theorem builders_only_append (c : Call) (this this' : Path) :
  commands_ this <> [] ->
  (forall p, c <> MoveTo p) ->
  call c this = Some (tt, this') ->
  exists suffix,
    commands_ this' = commands_ this ++ suffix
    /\ (length suffix <= 2)%nat
    /\ Forall (fun x => Command.kind x <> MOVE) suffix.
Proof.
  destruct this as [[|f l] d]; [contradiction|]. intros _ Hc H.
  apply call_on_nonempty in H
    as [(p & -> & _)|[(_ & b & _ & ->)|(x & Hx & -> & _)]].
  - now contradiction (Hc p).
  - destruct (is_close b).
    + exists []. simpl. rewrite app_nil_r. repeat split; [lia|constructor].
    + exists [Command.of_kind CLOSE]. repeat split; [simpl; lia|].
      repeat constructor. discriminate.
  - pose proof (is_segment_not_move x Hx) as Hm. unfold appended.
    destruct (Vector2.eqb _ _); simpl commands_.
    + exists [x; Command.of_kind CLOSE]. repeat split; [simpl; lia|].
      repeat constructor; [exact Hm|discriminate].
    + exists [x]. repeat split; [simpl; lia|now repeat constructor].
Qed.

Lemma builders_only_append_witness :
  exists suffix,
    commands_ (Path_of [Command.of_point MOVE (Vector2.mk 0 0);
                        Command.of_point LINE (Vector2.mk 3 4);
                        Command.of_control QUADRATIC (Vector2.mk 1 1) (Vector2.mk 0 0);
                        Command.of_kind CLOSE])
    = commands_ (Path_of [Command.of_point MOVE (Vector2.mk 0 0);
                          Command.of_point LINE (Vector2.mk 3 4)]) ++ suffix
    /\ (length suffix <= 2)%nat
    /\ Forall (fun x => Command.kind x <> MOVE) suffix.
Proof.
  apply (builders_only_append (QuadraticTo (Vector2.mk 1 1) (Vector2.mk 0 0))
           (Path_of [Command.of_point MOVE (Vector2.mk 0 0);
                     Command.of_point LINE (Vector2.mk 3 4)])).
  - discriminate.
  - discriminate.
  - reflexivity.
Defined.

(** X2. On a non-empty path, [lineTo], [quadraticTo] and [cubicTo] return,
    and the last command afterwards is a CLOSE exactly when the terminal
    point is the point of the first command: the size grows by two then, by
    one otherwise. *)
Theorem append_closes_exactly_on_first_point
    (this : Path) (f : Command) (pt c c1 c2 : Point) (m : M unit) :
  hd_error (commands_ this) = Some f ->
  In m [lineTo pt; quadraticTo c pt; cubicTo c1 c2 pt] ->
  exists this' b,
    m this = Some (tt, this')
    /\ last_of (commands_ this') = Some b
    /\ (Command.kind b = CLOSE <-> pt = Command.point f)
    /\ length (commands_ this')
       = (length (commands_ this)
          + if Vector2.eqb pt (Command.point f) then 2 else 1)%nat.
Proof.
  destruct this as [[|f' l] d]; [discriminate|]. intros [= ->] Hm.
  assert (Hgen : forall x, is_segment x = true -> Command.point x = pt ->
            exists this' b,
              Some (tt, appended x f (mkPath (f :: l) d)) = Some (tt, this')
              /\ last_of (commands_ this') = Some b
              /\ (Command.kind b = CLOSE <-> pt = Command.point f)
              /\ length (commands_ this')
                 = (length (f :: l)
                    + if Vector2.eqb pt (Command.point f) then 2 else 1)%nat).
  { intros x Hx Hp. unfold appended. rewrite Hp.
    destruct (Vector2.eqb pt (Command.point f)) eqn:E.
    - eexists _, (Command.of_kind CLOSE). split; [reflexivity|].
      cbv [commands_]. split; [|split].
      + change [x; Command.of_kind CLOSE] with ([x] ++ [Command.of_kind CLOSE]).
        rewrite (app_assoc (f :: l)). apply last_of_app.
      + split; [intros _; now apply Point_eqb_eq|reflexivity].
      + rewrite length_app. reflexivity.
    - exists (mkPath ((f :: l) ++ [x]) d), x. split; [reflexivity|].
      cbv [commands_]. split; [apply last_of_app|split].
      + split.
        * intros K. apply is_segment_not_close in Hx. unfold is_close in Hx.
          rewrite K in Hx. discriminate.
        * intros K. apply Point_eqb_eq in K. congruence.
      + rewrite length_app. reflexivity. }
  destruct Hm as [<-|[<-|[<-|[]]]].
  - rewrite lineTo_run. now apply Hgen.
  - rewrite quadraticTo_run. now apply Hgen.
  - rewrite cubicTo_run. now apply Hgen.
Qed.

Lemma append_closes_exactly_on_first_point_witness :
  exists this' b,
    cubicTo (Vector2.mk 1 1) (Vector2.mk 2 2) (Vector2.mk 3 3)
      (Path_of [Command.of_point MOVE (Vector2.mk 0 0)])
    = Some (tt, this')
    /\ last_of (commands_ this') = Some b
    /\ (Command.kind b = CLOSE
        <-> Vector2.mk 3 3 = Command.point (Command.of_point MOVE (Vector2.mk 0 0)))
    /\ length (commands_ this')
       = Nat.add
           (length (commands_ (Path_of [Command.of_point MOVE (Vector2.mk 0 0)])))
           (if Vector2.eqb (Vector2.mk 3 3)
                 (Command.point (Command.of_point MOVE (Vector2.mk 0 0)))
            then 2%nat else 1%nat).
Proof.
  apply (append_closes_exactly_on_first_point
           (Path_of [Command.of_point MOVE (Vector2.mk 0 0)])
           (Command.of_point MOVE (Vector2.mk 0 0))
           (Vector2.mk 3 3) (Vector2.mk 0 0) (Vector2.mk 1 1) (Vector2.mk 2 2)).
  - reflexivity.
  - simpl. auto.
Defined.

(** X3. Whatever builder calls are run from the empty path, the result has
    its only MOVE at the front: no command after the first is a MOVE. *)
Theorem built_paths_have_one_move (l : list Call) (this' : Path) :
  exec (calls l) Path_new = Some this' ->
  one_move (commands_ this').
Proof.
  apply (calls_invariant one_move call_one_move l Path_new this'). exact I.
Qed.

Lemma built_paths_have_one_move_witness :
  one_move
    (commands_
       (Path_of [Command.of_point MOVE (Vector2.mk 7 7);
                 Command.of_kind CLOSE;
                 Command.of_point LINE (Vector2.mk 1 2);
                 Command.of_point LINE (Vector2.mk 7 7);
                 Command.of_kind CLOSE])).
Proof.
  apply (built_paths_have_one_move
           [LineTo (Vector2.mk 0 0); MoveTo (Vector2.mk 7 7); Close; Close;
            LineTo (Vector2.mk 1 2); LineTo (Vector2.mk 7 7)]).
  reflexivity.
Defined.

(** ** When [reverse] returns, and what it returns *)

Section ReverseReturns.

Lemma last_of_map {A B} (f : A -> B) (l : list A) :
  last_of (map f l) = option_map f (last_of l).
Proof.
  induction l as [|a l IH]; [reflexivity|].
  destruct l as [|b l]; [reflexivity|]. exact IH.
Qed.

Lemma is_close_of_blank (c : Command) : is_close (blank c) = is_close c.
Proof. unfold is_close. now rewrite kind_blank. Qed.

Lemma map_kind_blank (cs : list Command) :
  map Command.kind (map blank cs) = map Command.kind cs.
Proof. rewrite map_map. apply map_ext. exact kind_blank. Qed.

(** Every vector is empty, the lone CLOSE, or of one of the two shapes
    [reverse] tells apart. *)
Lemma vector_shape (cs : list Command) :
  cs = []
  \/ (exists c, cs = [c] /\ is_close c = true)
  \/ (exists c0 tl b,
        cs = c0 :: tl /\ last_of cs = Some b /\ is_close b = false)
  \/ (exists c0 mid cl, cs = c0 :: mid ++ [cl] /\ is_close cl = true).
Proof.
  destruct cs as [|c0 tl]; [now left|right].
  destruct (last_of_some c0 tl) as [b Hb].
  destruct (is_close b) eqn:Hc; [|right; left; now exists c0, tl, b].
  destruct tl as [|c1 tl'].
  - injection Hb as <-. left. now exists c0.
  - right; right. destruct (exists_last (l := c1 :: tl')) as (mid & cl & E);
      [discriminate|].
    rewrite E in *. change (c0 :: mid ++ [cl]) with ((c0 :: mid) ++ [cl]) in Hb.
    rewrite last_of_app in Hb. injection Hb as ->. now exists c0, mid, b.
Qed.

(** The result on the two shapes, the same in a debug and in a release
    build. *)
Lemma reverse_open_returns (c0 b : Command) (tl : list Command) (d : Direction) :
  last_of (c0 :: tl) = Some b -> is_close b = false ->
  exists X,
    (forall NDEBUG, reverse NDEBUG (mkPath (c0 :: tl) d) = Some (tt, mkPath X d))
    /\ map blank X = map blank (c0 :: rev tl)
    /\ flat_map collect X = rev (flat_map collect (c0 :: tl)).
Proof.
  intros Hb Hc.
  destruct (finish_enough true d (c0 :: tl) (c0 :: rev tl)
              (length_collect_pinned_open c0 tl)) as (X & _ & HbX & HcX).
  exists X. split; [|now split]. intros NDEBUG.
  rewrite (reverse_open NDEBUG c0 b tl d Hb Hc). now apply finish_target.
Qed.

Lemma reverse_closed_returns (c0 cl : Command) (mid : list Command)
    (d : Direction) :
  is_close cl = true ->
  exists X,
    (forall NDEBUG,
        reverse NDEBUG (mkPath (c0 :: mid ++ [cl]) d) = Some (tt, mkPath X d))
    /\ map blank X = map blank (c0 :: rev mid ++ [cl])
    /\ flat_map collect X = rev (flat_map collect (c0 :: mid ++ [cl])).
Proof.
  intros Hc.
  destruct (finish_enough true d (c0 :: mid ++ [cl]) (c0 :: rev mid ++ [cl])
              (length_collect_pinned_closed c0 cl mid)) as (X & _ & HbX & HcX).
  exists X. split; [|now split]. intros NDEBUG.
  rewrite (reverse_closed NDEBUG c0 cl mid d Hc). now apply finish_target.
Qed.

Lemma reverse_lone_close (NDEBUG : bool) (c : Command) (d : Direction) :
  is_close c = true -> reverse NDEBUG (mkPath [c] d) = None.
Proof. intros H. rewrite reverse_run. simpl. now rewrite H. Qed.

(** What holds of every result of [reverse]. *)
Lemma reverse_result (NDEBUG : bool) (cs : list Command) (d : Direction)
    (this' : Path) :
  reverse NDEBUG (mkPath cs d) = Some (tt, this') ->
  exists cs1,
    direction_ this' = d
    /\ map blank (commands_ this') = map blank cs1
    /\ flat_map collect (commands_ this') = rev (flat_map collect cs)
    /\ Permutation cs1 cs
    /\ hd_error cs1 = hd_error cs
    /\ reverse_stable cs1 = true
    /\ (forall b, last_of cs = Some b -> is_close b = true ->
          last_of cs1 = Some b).
Proof.
  destruct (vector_shape cs)
    as [->|[(c & -> & Hc)|[(c0 & tl & b & -> & Hb & Hc)|(c0 & mid & cl & -> & Hc)]]].
  - discriminate.
  - now rewrite reverse_lone_close.
  - destruct (reverse_open_returns c0 b tl d Hb Hc) as (X & HX & HbX & HcX).
    rewrite HX. intros [= <-]. exists (c0 :: rev tl).
    repeat split; trivial.
    + constructor. symmetry. apply Permutation_rev.
    + destruct tl as [|c1 tl'].
      * injection Hb as ->. simpl. now rewrite Hc.
      * rewrite last_of_cons in Hb. unfold reverse_stable.
        assert (L : last_of (c0 :: rev (c1 :: tl')) = Some c1)
          by (simpl rev; change (c0 :: rev tl' ++ [c1])
                with ((c0 :: rev tl') ++ [c1]); apply last_of_app).
        rewrite last_of_rev in Hb.
        destruct (rev (c1 :: tl')) as [|s rest]; [discriminate|].
        injection Hb as ->. rewrite L, Hc. simpl. apply orb_true_r.
    + intros b' Hb' Hc'. congruence.
  - destruct (reverse_closed_returns c0 cl mid d Hc) as (X & HX & HbX & HcX).
    rewrite HX. intros [= <-]. exists (c0 :: rev mid ++ [cl]).
    assert (L : forall m, last_of (c0 :: m ++ [cl]) = Some cl)
      by (intros m; change (c0 :: m ++ [cl]) with ((c0 :: m) ++ [cl]);
          apply last_of_app).
    repeat split; trivial.
    + constructor. apply Permutation_app_tail. symmetry. apply Permutation_rev.
    + unfold reverse_stable. rewrite L.
      destruct (rev mid ++ [cl]) as [|s rest] eqn:E;
        [destruct (rev mid); discriminate|].
      now rewrite Hc.
    + intros b Hb' _. rewrite L in Hb'. rewrite L. exact Hb'.
Qed.

Lemma reverse_stable_blank (a b : list Command) :
  map blank a = map blank b -> reverse_stable a = reverse_stable b.
Proof.
  assert (H : forall cs, reverse_stable cs = reverse_stable (map blank cs)).
  { intros [|c0 [|c1 tl]]; [reflexivity|simpl; now rewrite is_close_of_blank|].
    change (reverse_stable (c0 :: c1 :: tl))
      with (match last_of (c0 :: c1 :: tl) with
            | Some b => is_close b || negb (is_close c1)
            | None => false
            end).
    change (reverse_stable (map blank (c0 :: c1 :: tl)))
      with (match last_of (map blank (c0 :: c1 :: tl)) with
            | Some b => is_close b || negb (is_close (blank c1))
            | None => false
            end).
    rewrite last_of_map. destruct (last_of (c0 :: c1 :: tl)); [|reflexivity].
    simpl. now rewrite !is_close_of_blank. }
  intros E. now rewrite (H a), (H b), E.
Qed.

End ReverseReturns.

(** X4. [reverse()] leaves defined behaviour on exactly two paths, the empty
    one and the one that is a lone CLOSE.  On every other path it returns,
    and its final [assert] holds: a debug and a release build return the
    same path. *)
Theorem reverse_faults_exactly_on_empty_and_lone_close
    (NDEBUG : bool) (this : Path) :
  (reverse NDEBUG this = None
   <-> commands_ this = []
       \/ exists c, commands_ this = [c] /\ Command.kind c = CLOSE)
  /\ reverse true this = reverse false this.
Proof.
  destruct this as [cs d]. simpl commands_.
  destruct (vector_shape cs)
    as [->|[(c & -> & Hc)|[(c0 & tl & b & -> & Hb & Hc)|(c0 & mid & cl & -> & Hc)]]].
  - split; [split; [now left|reflexivity]|reflexivity].
  - rewrite !reverse_lone_close by exact Hc. split; [|reflexivity].
    split; [|reflexivity]. intros _. right. exists c.
    split; [reflexivity|now apply Kind_eqb_eq].
  - destruct (reverse_open_returns c0 b tl d Hb Hc) as (X & HX & _).
    rewrite !HX. split; [|reflexivity]. split; [discriminate|].
    intros [E|(c & E & K)]; [discriminate|]. injection E as -> ->.
    injection Hb as ->. apply Kind_eqb_eq in K. unfold is_close in Hc. congruence.
  - destruct (reverse_closed_returns c0 cl mid d Hc) as (X & HX & _).
    rewrite !HX. split; [|reflexivity]. split; [discriminate|].
    intros [E|(c & E & K)]; [discriminate|]. injection E as _ E.
    destruct mid; discriminate.
Qed.

(** X5. When [reverse()] returns, the path has as many commands as before
    and the same kinds of commands, the first command has kept its kind and
    a final CLOSE is still the final command, and the points the commands
    hold, read in order, are the points they held before read backwards. *)
Theorem reverse_reverses_the_points
    (NDEBUG : bool) (this this' : Path) :
  reverse NDEBUG this = Some (tt, this') ->
  length (commands_ this') = length (commands_ this)
  /\ Permutation (map Command.kind (commands_ this'))
       (map Command.kind (commands_ this))
  /\ option_map Command.kind (hd_error (commands_ this'))
     = option_map Command.kind (hd_error (commands_ this))
  /\ (forall b, last_of (commands_ this) = Some b -> Command.kind b = CLOSE ->
        exists b', last_of (commands_ this') = Some b'
                   /\ Command.kind b' = CLOSE)
  /\ flat_map collect (commands_ this')
     = rev (flat_map collect (commands_ this)).
Proof.
  destruct this as [cs d]. simpl commands_. intros H.
  destruct (reverse_result NDEBUG cs d this' H)
    as (cs1 & _ & Hb & Hc & Hp & Hh & _ & Hl).
  pose proof (f_equal (map Command.kind) Hb) as Hk. rewrite !map_kind_blank in Hk.
  split; [|split; [|split; [|split]]].
  - rewrite <- (length_map Command.kind), Hk, length_map.
    now apply Permutation_length.
  - rewrite Hk. now apply Permutation_map.
  - rewrite <- Hh. destruct (commands_ this'), cs1; try discriminate;
      [reflexivity|]. simpl in *. now injection Hk as ->.
  - intros b Hlast Hkb. assert (Hcb : is_close b = true) by now apply Kind_eqb_eq.
    specialize (Hl b Hlast Hcb).
    pose proof (f_equal (@last_of _) Hk) as Hk'. unfold Command in *.
    rewrite !last_of_map, Hl in Hk'.
    destruct (@last_of Command.t (commands_ this')) as [b'|]; simpl in Hk';
      [|discriminate].
    exists b'. split; [reflexivity|]. congruence.
  - exact Hc.
Qed.

Lemma reverse_reverses_the_points_witness :
  length
    (commands_
       (Path_of [Command.of_point MOVE (Vector2.mk 5 5);
                 Command.of_controls CUBIC (Vector2.mk 4 4) (Vector2.mk 3 3)
                   (Vector2.mk 2 2);
                 Command.of_control QUADRATIC (Vector2.mk 1 1) (Vector2.mk 0 0);
                 Command.of_kind CLOSE]))
  = length
      (commands_
         (Path_of [Command.of_point MOVE (Vector2.mk 0 0);
                   Command.of_control QUADRATIC (Vector2.mk 1 1) (Vector2.mk 2 2);
                   Command.of_controls CUBIC (Vector2.mk 3 3) (Vector2.mk 4 4)
                     (Vector2.mk 5 5);
                   Command.of_kind CLOSE]))
  /\ flat_map collect
       (commands_
          (Path_of [Command.of_point MOVE (Vector2.mk 5 5);
                    Command.of_controls CUBIC (Vector2.mk 4 4) (Vector2.mk 3 3)
                      (Vector2.mk 2 2);
                    Command.of_control QUADRATIC (Vector2.mk 1 1) (Vector2.mk 0 0);
                    Command.of_kind CLOSE]))
     = rev (flat_map collect
              (commands_
                 (Path_of [Command.of_point MOVE (Vector2.mk 0 0);
                           Command.of_control QUADRATIC (Vector2.mk 1 1)
                             (Vector2.mk 2 2);
                           Command.of_controls CUBIC (Vector2.mk 3 3)
                             (Vector2.mk 4 4) (Vector2.mk 5 5);
                           Command.of_kind CLOSE]))).
Proof.
  pose proof (reverse_reverses_the_points false
                (Path_of [Command.of_point MOVE (Vector2.mk 0 0);
                          Command.of_control QUADRATIC (Vector2.mk 1 1)
                            (Vector2.mk 2 2);
                          Command.of_controls CUBIC (Vector2.mk 3 3)
                            (Vector2.mk 4 4) (Vector2.mk 5 5);
                          Command.of_kind CLOSE])
                (Path_of [Command.of_point MOVE (Vector2.mk 5 5);
                          Command.of_controls CUBIC (Vector2.mk 4 4)
                            (Vector2.mk 3 3) (Vector2.mk 2 2);
                          Command.of_control QUADRATIC (Vector2.mk 1 1)
                            (Vector2.mk 0 0);
                          Command.of_kind CLOSE])
                eq_refl) as (H1 & _ & _ & _ & H5).
  split; [exact H1|exact H5].
Defined.

(** X6. A path that [reverse()] has returned is given back by two more
    reversals: whatever the path was, after the first reversal [reverse()]
    is an involution. *)
Theorem reverse_is_involutive_on_its_results
    (NDEBUG : bool) (this q : Path) :
  reverse NDEBUG this = Some (tt, q) ->
  exists r,
    reverse NDEBUG q = Some (tt, r)
    /\ reverse NDEBUG r = Some (tt, q).
Proof.
  destruct this as [cs d]. intros H.
  destruct (reverse_result NDEBUG cs d q H) as (cs1 & Hd & Hb & _ & _ & _ & Hs & _).
  destruct q as [X d']. simpl in Hd, Hb. subst d'.
  rewrite <- (reverse_stable_blank _ _ Hb) in Hs.
  destruct (reverse_twice NDEBUG X d Hs) as (Y & H1 & H2).
  now exists (mkPath Y d).
Qed.

Lemma reverse_is_involutive_on_its_results_witness :
  exists r,
    reverse false
      (Path_of [Command.of_point MOVE (Vector2.mk 3 4);
                Command.of_point LINE (Vector2.mk 1 2);
                Command.of_kind CLOSE]) = Some (tt, r)
    /\ reverse false r
       = Some (tt, Path_of [Command.of_point MOVE (Vector2.mk 3 4);
                            Command.of_point LINE (Vector2.mk 1 2);
                            Command.of_kind CLOSE]).
Proof.
  apply (reverse_is_involutive_on_its_results false
           (Path_of [Command.of_point MOVE (Vector2.mk 1 2);
                     Command.of_kind CLOSE;
                     Command.of_point LINE (Vector2.mk 3 4)])).
  reflexivity.
Defined.

Lemma reverse_faults_exactly_on_empty_and_lone_close_witness :
  reverse false Path_new = None
  /\ reverse false (Path_of [Command.of_kind CLOSE]) = None.
Proof.
  split.
  - apply (proj1 (reverse_faults_exactly_on_empty_and_lone_close false Path_new)).
    now left.
  - apply (proj1 (reverse_faults_exactly_on_empty_and_lone_close false
                    (Path_of [Command.of_kind CLOSE]))).
    right. now exists (Command.of_kind CLOSE).
Defined.

(** ** The rectangle [bounds] returns *)

Section Extremes.

Lemma fold_min_le_init (xs : list Z) (a : Z) : fold_left Z.min xs a <= a.
Proof.
  revert a. induction xs as [|x xs IH]; intros a; simpl; [lia|].
  specialize (IH (Z.min a x)). lia.
Qed.

Lemma fold_min_le (xs : list Z) (a x : Z) : In x xs -> fold_left Z.min xs a <= x.
Proof.
  revert a. induction xs as [|y xs IH]; intros a; [contradiction|].
  simpl. intros [->|H]; [|now apply IH].
  pose proof (fold_min_le_init xs (Z.min a x)). lia.
Qed.

Lemma fold_min_attained (xs : list Z) (a : Z) :
  fold_left Z.min xs a = a \/ In (fold_left Z.min xs a) xs.
Proof.
  revert a. induction xs as [|x xs IH]; intros a; [now left|].
  simpl. destruct (IH (Z.min a x)) as [H|H]; [|now right; right].
  rewrite H. destruct (Z.min_spec a x) as [[_ ->]|[_ ->]]; [now left|right; now left].
Qed.

Lemma fold_max_ge_init (xs : list Z) (a : Z) : a <= fold_left Z.max xs a.
Proof.
  revert a. induction xs as [|x xs IH]; intros a; simpl; [lia|].
  specialize (IH (Z.max a x)). lia.
Qed.

Lemma fold_max_ge (xs : list Z) (a x : Z) : In x xs -> x <= fold_left Z.max xs a.
Proof.
  revert a. induction xs as [|y xs IH]; intros a; [contradiction|].
  simpl. intros [->|H]; [|now apply IH].
  pose proof (fold_max_ge_init xs (Z.max a x)). lia.
Qed.

Lemma fold_max_attained (xs : list Z) (a : Z) :
  fold_left Z.max xs a = a \/ In (fold_left Z.max xs a) xs.
Proof.
  revert a. induction xs as [|x xs IH]; intros a; [now left|].
  simpl. destruct (IH (Z.max a x)) as [H|H]; [|now right; right].
  rewrite H. destruct (Z.max_spec a x) as [[_ ->]|[_ ->]]; [right; now left|now left].
Qed.

(** The scan keeps the four extremes apart from one another. *)
Lemma fold_running_extremes (l : list Point) :
  forall e,
    min_x (fold_left running l e) = fold_left Z.min (map Vector2.x l) (min_x e)
    /\ min_y (fold_left running l e) = fold_left Z.min (map Vector2.y l) (min_y e)
    /\ max_x (fold_left running l e) = fold_left Z.max (map Vector2.x l) (max_x e)
    /\ max_y (fold_left running l e) = fold_left Z.max (map Vector2.y l) (max_y e).
Proof.
  induction l as [|p l IH]; intros e; [now repeat split|].
  simpl. destruct (IH (running e p)) as (H1 & H2 & H3 & H4).
  now rewrite H1, H2, H3, H4.
Qed.

Lemma running_swap (e : Extent) (a b : Point) :
  running (running e a) b = running (running e b) a.
Proof. unfold running. simpl. f_equal; lia. Qed.

Lemma fold_running_permutation (l l' : list Point) :
  Permutation l l' ->
  forall e, fold_left running l e = fold_left running l' e.
Proof.
  induction 1 as [|x l l' _ IH|x y l|l l' l'' _ IH1 _ IH2]; intros e; simpl.
  - reflexivity.
  - apply IH.
  - now rewrite running_swap.
  - now rewrite IH1, IH2.
Qed.

Lemma bounds_points_collect (c : Command) :
  Permutation (bounds_points c) (collect c).
Proof.
  unfold bounds_points, collect, Command.type, Command.control.
  destruct (Command.kind c); try reflexivity. apply perm_swap.
Qed.

Lemma bounds_points_collect_all (cs : list Command) :
  Permutation (flat_map bounds_points cs) (flat_map collect cs).
Proof.
  induction cs as [|c cs IH]; [reflexivity|].
  simpl. apply Permutation_app; [apply bounds_points_collect|exact IH].
Qed.

End Extremes.

(** X7. A reversed path has the bounds of the path it was: whenever
    [reverse()] returns, [bounds()] of the result is [bounds()] of the
    receiver. *)
Theorem reverse_keeps_bounds (NDEBUG : bool) (this this' : Path) :
  reverse NDEBUG this = Some (tt, this') ->
  eval bounds this' = eval bounds this.
Proof.
  destruct this as [cs d]. intros H.
  destruct (reverse_result NDEBUG cs d this' H) as (_ & _ & _ & Hc & _).
  unfold eval. rewrite !bounds_run. simpl commands_. f_equal.
  unfold bounds_of_points.
  rewrite (fold_running_permutation (flat_map bounds_points (commands_ this'))
             (flat_map bounds_points cs)); [reflexivity|].
  rewrite (bounds_points_collect_all (commands_ this')), Hc,
    (bounds_points_collect_all cs).
  symmetry. apply Permutation_rev.
Qed.

Lemma reverse_keeps_bounds_witness :
  eval bounds
    (Path_of [Command.of_point MOVE (Vector2.mk 5 0);
              Command.of_controls CUBIC (Vector2.mk 4 9) (Vector2.mk (-3) 3)
                (Vector2.mk 2 2);
              Command.of_point LINE (Vector2.mk 0 0)])
  = eval bounds
      (Path_of [Command.of_point MOVE (Vector2.mk 0 0);
                Command.of_point LINE (Vector2.mk 2 2);
                Command.of_controls CUBIC (Vector2.mk (-3) 3) (Vector2.mk 4 9)
                  (Vector2.mk 5 0)]).
Proof.
  apply (reverse_keeps_bounds false
           (Path_of [Command.of_point MOVE (Vector2.mk 0 0);
                     Command.of_point LINE (Vector2.mk 2 2);
                     Command.of_controls CUBIC (Vector2.mk (-3) 3) (Vector2.mk 4 9)
                       (Vector2.mk 5 0)])).
  reflexivity.
Defined.

(** X8. When the path folds at least one point and every folded coordinate
    lies strictly between the two sentinels, the rectangle of [bounds()]
    contains every folded point, control points included, and each of its
    four sides passes through one of them. *)
Theorem bounds_is_the_tight_box_of_the_points (this : Path) :
  flat_map bounds_points (commands_ this) <> [] ->
  Forall inside (flat_map bounds_points (commands_ this)) ->
  exists r,
    bounds this = Some (r, this)
    /\ (forall p, In p (flat_map bounds_points (commands_ this)) ->
          Vector2.x (Rect.min r) <= Vector2.x p <= Vector2.x (Rect.max r)
          /\ Vector2.y (Rect.min r) <= Vector2.y p <= Vector2.y (Rect.max r))
    /\ (exists p, In p (flat_map bounds_points (commands_ this))
                  /\ Vector2.x p = Vector2.x (Rect.min r))
    /\ (exists p, In p (flat_map bounds_points (commands_ this))
                  /\ Vector2.y p = Vector2.y (Rect.min r))
    /\ (exists p, In p (flat_map bounds_points (commands_ this))
                  /\ Vector2.x p = Vector2.x (Rect.max r))
    /\ (exists p, In p (flat_map bounds_points (commands_ this))
                  /\ Vector2.y p = Vector2.y (Rect.max r)).
Proof.
  intros Hne Hin. eexists. split; [apply bounds_run|].
  set (pts := flat_map bounds_points (commands_ this)) in *.
  destruct (fold_running_extremes pts Extent_init) as (E1 & E2 & E3 & E4).
  unfold bounds_of_points. rewrite E1, E2, E3, E4. simpl min_x. simpl min_y.
  simpl max_x. simpl max_y.
  set (mx := fold_left Z.min (map Vector2.x pts) numeric_limits_max).
  set (my := fold_left Z.min (map Vector2.y pts) numeric_limits_max).
  set (Mx := fold_left Z.max (map Vector2.x pts) numeric_limits_lowest).
  set (My := fold_left Z.max (map Vector2.y pts) numeric_limits_lowest).
  assert (Hall : forall p, In p pts ->
            inside p /\ mx <= Vector2.x p <= Mx /\ my <= Vector2.y p <= My).
  { intros p Hp. split; [now apply (proj1 (Forall_forall _ _) Hin)|].
    split; split.
    - apply fold_min_le. now apply in_map.
    - apply fold_max_ge. now apply in_map.
    - apply fold_min_le. now apply in_map.
    - apply fold_max_ge. now apply in_map. }
  destruct pts as [|p0 pts'] eqn:Epts; [contradiction|].
  destruct (Hall p0 (or_introl eq_refl)) as ([[? ?] [? ?]] & [? ?] & [? ?]).
  assert (Hmx : (mx =? numeric_limits_max) = false) by (apply Z.eqb_neq; lia).
  assert (Hmy : (my =? numeric_limits_max) = false) by (apply Z.eqb_neq; lia).
  assert (HMx : (Mx =? numeric_limits_lowest) = false) by (apply Z.eqb_neq; lia).
  assert (HMy : (My =? numeric_limits_lowest) = false) by (apply Z.eqb_neq; lia).
  rewrite Hmx, Hmy, HMx, HMy. simpl.
  split; [intros p Hp; now destruct (Hall p Hp) as (_ & ? & ?)|].
  repeat split.
  - destruct (fold_min_attained (map Vector2.x (p0 :: pts')) numeric_limits_max)
      as [E|E]; fold mx in E; [lia|].
    apply in_map_iff in E as (p & Ep & Hp). now exists p.
  - destruct (fold_min_attained (map Vector2.y (p0 :: pts')) numeric_limits_max)
      as [E|E]; fold my in E; [lia|].
    apply in_map_iff in E as (p & Ep & Hp). now exists p.
  - destruct (fold_max_attained (map Vector2.x (p0 :: pts')) numeric_limits_lowest)
      as [E|E]; fold Mx in E; [lia|].
    apply in_map_iff in E as (p & Ep & Hp). now exists p.
  - destruct (fold_max_attained (map Vector2.y (p0 :: pts')) numeric_limits_lowest)
      as [E|E]; fold My in E; [lia|].
    apply in_map_iff in E as (p & Ep & Hp). now exists p.
Qed.

Lemma bounds_is_the_tight_box_of_the_points_witness :
  exists r,
    bounds (Path_of [Command.of_point MOVE (Vector2.mk 0 0);
                     Command.of_controls CUBIC (Vector2.mk (-3) 3) (Vector2.mk 4 9)
                       (Vector2.mk 5 0)])
    = Some (r, Path_of [Command.of_point MOVE (Vector2.mk 0 0);
                        Command.of_controls CUBIC (Vector2.mk (-3) 3)
                          (Vector2.mk 4 9) (Vector2.mk 5 0)])
    /\ Vector2.x (Rect.min r) <= 4 <= Vector2.x (Rect.max r)
    /\ Vector2.y (Rect.min r) <= 9 <= Vector2.y (Rect.max r).
Proof.
  destruct (bounds_is_the_tight_box_of_the_points
              (Path_of [Command.of_point MOVE (Vector2.mk 0 0);
                        Command.of_controls CUBIC (Vector2.mk (-3) 3)
                          (Vector2.mk 4 9) (Vector2.mk 5 0)]))
    as (r & Hr & Hall & _).
  - discriminate.
  - repeat constructor.
  - exists r. split; [exact Hr|].
    apply (Hall (Vector2.mk 4 9)). simpl. auto.
Defined.


(** ** What [direction] reads *)

Section DirectionReads.

Variable NDEBUG : bool.

Lemma direction_loop_reads (rest : list Command) :
  forall (rest' : list Command) (front front' first first' : Command) (sum : T),
    map Command.kind rest = map Command.kind rest' ->
    map Command.point rest = map Command.point rest' ->
    Command.point front = Command.point front' ->
    Command.point first = Command.point first' ->
    eval (direction_loop NDEBUG front first rest sum) Path_new
    = eval (direction_loop NDEBUG front' first' rest' sum) Path_new.
Proof.
  induction rest as [|second rest IH];
    intros [|second' rest'] front front' first first' sum Hk Hp Hf Hs;
    try discriminate; [reflexivity|].
  injection Hk as Hk Hks. injection Hp as Hp Hps.
  specialize (IH rest' front front' second second').
  unfold eval in *. simpl direction_loop. unfold Command.type.
  rewrite <- Hk, <- Hp, <- Hf, <- Hs.
  destruct (Command.kind second); try (now apply IH).
  unfold bind, assert. destruct NDEBUG; simpl; [now apply IH|reflexivity].
Qed.

Lemma direction_loop_any_build (rest : list Command) :
  Forall (fun c => Command.kind c <> MOVE) rest ->
  forall (front first : Command) (sum : T),
    eval (direction_loop true front first rest sum) Path_new
    = eval (direction_loop false front first rest sum) Path_new.
Proof.
  induction 1 as [|second rest Hs _ IH]; intros front first sum; [reflexivity|].
  unfold eval in *. simpl direction_loop. unfold Command.type.
  destruct (Command.kind second); try apply IH. contradiction.
Qed.

End DirectionReads.

(** X10. [direction()] reads the kinds and the on-curve points only: two
    paths whose commands agree in kind and in point, whatever their control
    points, get the same answer, or both stop at the same [assert]. *)
Theorem direction_ignores_control_points (NDEBUG : bool) (a b : Path) :
  map Command.kind (commands_ a) = map Command.kind (commands_ b) ->
  map Command.point (commands_ a) = map Command.point (commands_ b) ->
  eval (direction NDEBUG) a = eval (direction NDEBUG) b.
Proof.
  intros Hk Hp. unfold eval. rewrite !direction_run.
  assert (Hlen : length (commands_ a) = length (commands_ b))
    by (rewrite <- (length_map Command.kind), Hk; apply length_map).
  rewrite Hlen.
  assert (Hsum : direction_sum NDEBUG (commands_ a)
                 = direction_sum NDEBUG (commands_ b)).
  { destruct (commands_ a) as [|fa ra], (commands_ b) as [|fb rb];
      try discriminate; [reflexivity|].
    injection Hk as _ Hk. injection Hp as Hf Hp.
    unfold direction_sum. now apply direction_loop_reads. }
  rewrite Hsum. destruct (length (commands_ b) <? 3)%nat; [reflexivity|].
  destruct (direction_sum NDEBUG (commands_ b)); reflexivity.
Qed.

Lemma direction_ignores_control_points_witness :
  eval (direction false)
    (Path_of [Command.of_point MOVE (Vector2.mk 0 0);
              Command.of_control QUADRATIC (Vector2.mk 50 (-50)) (Vector2.mk 0 1);
              Command.of_controls CUBIC (Vector2.mk 9 9) (Vector2.mk (-9) 9)
                (Vector2.mk 1 1)])
  = eval (direction false)
      (Path_of [Command.of_point MOVE (Vector2.mk 0 0);
                Command.of_control QUADRATIC (Vector2.mk 0 0) (Vector2.mk 0 1);
                Command.of_controls CUBIC (Vector2.mk 1 2) (Vector2.mk 3 4)
                  (Vector2.mk 1 1)]).
Proof.
  apply (direction_ignores_control_points false); reflexivity.
Defined.

(** ** Paths made by the builders *)

Lemma calls_start_with_move (l : list Call) (this' : Path) :
  l <> [] ->
  exec (calls l) Path_new = Some this' ->
  starts_with_move (commands_ this').
Proof.
  destruct l as [|c l]; [contradiction|]. intros _ H.
  unfold exec in H. simpl in H. unfold bind in H.
  destruct (call c Path_new) as [[[] this1]|] eqn:E; [|discriminate].
  assert (H1 : starts_with_move (commands_ this1))
    by (apply (call_starts_with_move c Path_new); [now left|exact E]).
  apply (calls_invariant starts_with_move) with (l := l) (this := this1);
    [|exact H1|exact H].
  intros c0 t t' Ht. apply call_starts_with_move. now right.
Qed.

(** X11. On a path made by builder calls from the empty path,
    [direction()] never stops at its [assert]: it returns, and a debug and a
    release build give the same answer.  [reverse()] returns on such a path
    as soon as one call was made. *)
Theorem built_paths_never_fault (l : list Call) (this : Path) :
  exec (calls l) Path_new = Some this ->
  (exists d,
      direction true this = Some (d, this)
      /\ direction false this = Some (d, this))
  /\ (l <> [] ->
      exists q, reverse true this = Some (tt, q)
                /\ reverse false this = Some (tt, q)).
Proof.
  intros H. split.
  - pose proof (calls_invariant one_move call_one_move l Path_new this I H) as Hm.
    rewrite !direction_run. destruct (commands_ this) as [|f rest].
    + now exists UNDEFINED.
    + destruct Hm as [_ Hrest].
      destruct (length (f :: rest) <? 3)%nat; [now exists UNDEFINED|].
      unfold direction_sum. rewrite (direction_loop_any_build rest Hrest).
      destruct (direction_loop_returns false rest (or_intror Hrest) f f T_zero)
        as [v Hv].
      rewrite Hv. eexists. split; reflexivity.
  - intros Hne. pose proof (calls_start_with_move l this Hne H) as Hm.
    destruct this as [cs d]. simpl in Hm.
    destruct (vector_shape cs)
      as [->|[(c & -> & Hc)|[(c0 & tl & b & -> & Hb & Hc)|(c0 & mid & cl & -> & Hc)]]].
    + contradiction.
    + simpl in Hm. unfold is_close in Hc. rewrite Hm in Hc. discriminate.
    + destruct (reverse_open_returns c0 b tl d Hb Hc) as (X & HX & _).
      exists (mkPath X d). split; apply HX.
    + destruct (reverse_closed_returns c0 cl mid d Hc) as (X & HX & _).
      exists (mkPath X d). split; apply HX.
Qed.

Lemma built_paths_never_fault_witness :
  (exists d,
      direction true
        (Path_of [Command.of_point MOVE (Vector2.mk 7 7);
                  Command.of_kind CLOSE;
                  Command.of_point LINE (Vector2.mk 1 2);
                  Command.of_point LINE (Vector2.mk 7 7);
                  Command.of_kind CLOSE])
      = Some (d, Path_of [Command.of_point MOVE (Vector2.mk 7 7);
                          Command.of_kind CLOSE;
                          Command.of_point LINE (Vector2.mk 1 2);
                          Command.of_point LINE (Vector2.mk 7 7);
                          Command.of_kind CLOSE])
      /\ direction false
           (Path_of [Command.of_point MOVE (Vector2.mk 7 7);
                     Command.of_kind CLOSE;
                     Command.of_point LINE (Vector2.mk 1 2);
                     Command.of_point LINE (Vector2.mk 7 7);
                     Command.of_kind CLOSE])
         = Some (d, Path_of [Command.of_point MOVE (Vector2.mk 7 7);
                             Command.of_kind CLOSE;
                             Command.of_point LINE (Vector2.mk 1 2);
                             Command.of_point LINE (Vector2.mk 7 7);
                             Command.of_kind CLOSE]))
  /\ exists q,
       reverse true
         (Path_of [Command.of_point MOVE (Vector2.mk 7 7);
                   Command.of_kind CLOSE;
                   Command.of_point LINE (Vector2.mk 1 2);
                   Command.of_point LINE (Vector2.mk 7 7);
                   Command.of_kind CLOSE]) = Some (tt, q)
       /\ reverse false
            (Path_of [Command.of_point MOVE (Vector2.mk 7 7);
                      Command.of_kind CLOSE;
                      Command.of_point LINE (Vector2.mk 1 2);
                      Command.of_point LINE (Vector2.mk 7 7);
                      Command.of_kind CLOSE]) = Some (tt, q).
Proof.
  destruct (built_paths_never_fault
              [MoveTo (Vector2.mk 7 7); Close; LineTo (Vector2.mk 1 2);
               LineTo (Vector2.mk 7 7)]
              (Path_of [Command.of_point MOVE (Vector2.mk 7 7);
                        Command.of_kind CLOSE;
                        Command.of_point LINE (Vector2.mk 1 2);
                        Command.of_point LINE (Vector2.mk 7 7);
                        Command.of_kind CLOSE]) eq_refl) as [H1 H2].
  split; [exact H1|]. apply H2. discriminate.
Defined.

(** ** The reversal as geometry *)

Section ReverseGeometry.

Variable NDEBUG : bool.

Lemma reverse_move_segments (c0 : Command) (segs : list Command) (d : Direction) :
  Command.kind c0 = MOVE ->
  Forall (fun c => is_segment c = true) segs ->
  reverse NDEBUG (mkPath (c0 :: segs) d)
  = Some (tt, mkPath (Command.set_point (fst (flip (Command.point c0) segs [])) c0
                        :: snd (flip (Command.point c0) segs [])) d).
Proof.
  intros H0 Hsegs.
  assert (Hc0 : is_close c0 = false) by (unfold is_close; now rewrite H0).
  destruct (last_of_segments segs Hsegs c0 Hc0) as (b & Hb & Hcb).
  rewrite (reverse_open NDEBUG c0 b segs d Hb Hcb). apply finish_target.
  - simpl. rewrite (flip_blank segs Hsegs), app_nil_r, map_rev. f_equal.
    unfold blank. simpl. now rewrite H0.
  - pose proof (flip_collect segs Hsegs (Command.point c0) []) as Fc.
    simpl in Fc. simpl. unfold collect at 1 3, Command.type. simpl.
    rewrite H0. simpl. now rewrite Fc.
Qed.

Lemma reverse_move_segments_close (c0 cl : Command) (segs : list Command)
    (d : Direction) :
  Command.kind c0 = MOVE ->
  Forall (fun c => is_segment c = true) segs ->
  Command.kind cl = CLOSE ->
  reverse NDEBUG (mkPath (c0 :: segs ++ [cl]) d)
  = Some (tt, mkPath (Command.set_point (fst (flip (Command.point c0) segs [])) c0
                        :: snd (flip (Command.point c0) segs []) ++ [cl]) d).
Proof.
  intros H0 Hsegs Hcl.
  assert (Hc : is_close cl = true) by now apply Kind_eqb_eq.
  rewrite (reverse_closed NDEBUG c0 cl segs d Hc). apply finish_target.
  - simpl. rewrite !map_app, (flip_blank segs Hsegs), app_nil_r, map_rev. f_equal.
    unfold blank. simpl. now rewrite H0.
  - pose proof (flip_collect segs Hsegs (Command.point c0) []) as Fc.
    simpl in Fc. simpl. rewrite !flat_map_app. simpl.
    unfold collect at 1 3 4 6, Command.type. simpl.
    rewrite H0, Hcl. simpl. rewrite !app_nil_r. now rewrite Fc.
Qed.

End ReverseGeometry.

Lemma flip_turned (segs : list Command) :
  forall (s : Point) (acc acc0 : list Command),
    Forall2 turned acc acc0 ->
    Forall2 turned (snd (flip s segs acc)) (rev segs ++ acc0).
Proof.
  induction segs as [|seg segs IH]; intros s acc acc0 H; [exact H|].
  simpl. rewrite <- app_assoc. apply IH. constructor; [|exact H].
  unfold turned, flip_segment.
  destruct seg as [[] c1 c2 p]; simpl; repeat split; congruence.
Qed.

(** X12. On a path that is a MOVE, then LINE, QUADRATIC and CUBIC commands,
    then possibly one CLOSE, [reverse()] returns the path run backwards: the
    on-curve points in the opposite order, the segments in the opposite
    order with each CUBIC's two controls exchanged and all other controls
    kept, the MOVE first and the CLOSE, if there is one, last and as it
    was. *)
Theorem reverse_is_the_geometric_reversal
    (NDEBUG : bool) (c0 : Command) (segs tail : list Command) (d : Direction) :
  Command.kind c0 = MOVE ->
  Forall (fun c => is_segment c = true) segs ->
  tail = [] \/ (exists cl, tail = [cl] /\ Command.kind cl = CLOSE) ->
  exists m X,
    reverse NDEBUG (mkPath (c0 :: segs ++ tail) d)
    = Some (tt, mkPath (m :: X ++ tail) d)
    /\ Command.kind m = MOVE
    /\ map Command.point (m :: X) = rev (map Command.point (c0 :: segs))
    /\ Forall2 turned X (rev segs).
Proof.
  intros H0 Hsegs Htail.
  exists (Command.set_point (fst (flip (Command.point c0) segs [])) c0),
    (snd (flip (Command.point c0) segs [])).
  split; [|split; [exact H0|split]].
  - destruct Htail as [->|(cl & -> & Hcl)].
    + rewrite !app_nil_r. now apply reverse_move_segments.
    + now apply reverse_move_segments_close.
  - pose proof (flip_points segs (Command.point c0) []) as Fp. simpl in Fp.
    simpl. now rewrite Fp.
  - rewrite <- (app_nil_r (rev segs)). apply flip_turned. constructor.
Qed.

Lemma reverse_is_the_geometric_reversal_witness :
  exists m X,
    reverse false
      (mkPath (Command.of_point MOVE (Vector2.mk 0 0)
               :: [Command.of_controls CUBIC (Vector2.mk 1 1) (Vector2.mk 2 2)
                     (Vector2.mk 3 3)] ++ [Command.of_kind CLOSE]) UNDEFINED)
    = Some (tt, mkPath (m :: X ++ [Command.of_kind CLOSE]) UNDEFINED)
    /\ Command.kind m = MOVE
    /\ map Command.point (m :: X)
       = rev (map Command.point
                (Command.of_point MOVE (Vector2.mk 0 0)
                 :: [Command.of_controls CUBIC (Vector2.mk 1 1) (Vector2.mk 2 2)
                       (Vector2.mk 3 3)]))
    /\ Forall2 turned X
         (rev [Command.of_controls CUBIC (Vector2.mk 1 1) (Vector2.mk 2 2)
                 (Vector2.mk 3 3)]).
Proof.
  apply (reverse_is_the_geometric_reversal false).
  - reflexivity.
  - repeat constructor.
  - right. now exists (Command.of_kind CLOSE).
Defined.

(** ** Element access *)

Lemma last_of_nth {A} (l : list A) :
  last_of l = nth_error l (Nat.pred (length l)).
Proof.
  induction l as [|a l IH]; [reflexivity|].
  destruct l as [|b l]; [reflexivity|]. rewrite last_of_cons, IH. reflexivity.
Qed.

(** X14. On a path of fewer than 2^31 commands and for an [int] index,
    [at(index)] and [operator[]] are both range-checked: they return the
    command at that place when [0 <= index < size()] and throw otherwise, a
    negative index included, which the conversion to the size type makes too
    large.  On a non-empty path [front()] is [at(0)] and [back()] is
    [at(size() - 1)]. *)
Theorem element_access_is_checked (this : Path) (index : Z) :
  Z.of_nat (length (commands_ this)) < 2 ^ 31 ->
  - 2 ^ 31 <= index < 2 ^ 31 ->
  (0 <= index < Z.of_nat (length (commands_ this)) ->
   exists c, nth_error (commands_ this) (Z.to_nat index) = Some c
             /\ at_ index this = Some (c, this)
             /\ subscript index this = Some (c, this))
  /\ (index < 0 \/ Z.of_nat (length (commands_ this)) <= index ->
      at_ index this = None /\ subscript index this = None)
  /\ (commands_ this <> [] ->
      front this = at_ 0 this
      /\ back this = at_ (Z.of_nat (length (commands_ this)) - 1) this).
Proof.
  intros Hlen Hidx. set (n := Z.of_nat (length (commands_ this))) in *.
  assert (Hat : forall i, - 2 ^ 31 <= i < 2 ^ 31 ->
            at_ i this
            = if (0 <=? i) && (i <? n)
              then lift (nth_error (commands_ this) (Z.to_nat i)) this
              else None).
  { intros i Hi. unfold at_, bind, commands, size_type_of_int, fault, lift.
    cbv beta iota zeta. fold n. destruct (Z.leb_spec 0 i).
    - rewrite Z.mod_small by lia. cbn [andb]. now destruct (i <? n).
    - replace (i mod 2 ^ 64) with (i + 2 ^ 64)
        by (apply Z.mod_unique with (q := -1); lia).
      replace (i + 2 ^ 64 <? n) with false
        by (symmetry; apply Z.ltb_ge; lia).
      reflexivity. }
  assert (Hsub : subscript index this = at_ index this) by reflexivity.
  rewrite Hsub. split; [|split].
  - intros Hin. rewrite Hat by exact Hidx.
    replace ((0 <=? index) && (index <? n)) with true
      by (symmetry; apply andb_true_iff; split;
          [apply Z.leb_le|apply Z.ltb_lt]; lia).
    destruct (nth_error (commands_ this) (Z.to_nat index)) as [c|] eqn:E.
    + exists c. now repeat split.
    + apply nth_error_None in E. lia.
  - intros Hout. rewrite Hat by exact Hidx.
    destruct (Z.leb_spec 0 index), (Z.ltb_spec index n); try (now split); lia.
  - intros Hne. split.
    + rewrite Hat by lia. unfold front, bind, commands, lift. subst n.
      destruct (commands_ this); [contradiction|reflexivity].
    + rewrite Hat by lia. unfold back, bind, commands, lift. rewrite last_of_nth.
      subst n. destruct (commands_ this) as [|c l]; [contradiction|].
      replace ((0 <=? Z.of_nat (length (c :: l)) - 1)
               && (Z.of_nat (length (c :: l)) - 1 <? Z.of_nat (length (c :: l))))
        with true
        by (symmetry; apply andb_true_iff; split;
            [apply Z.leb_le|apply Z.ltb_lt]; simpl length; lia).
      replace (Z.to_nat (Z.of_nat (length (c :: l)) - 1))
        with (Nat.pred (length (c :: l))) by (simpl length; lia).
      reflexivity.
Qed.

Lemma element_access_is_checked_witness :
  (exists c,
      nth_error
        (commands_ (Path_of [Command.of_point MOVE (Vector2.mk 1 2);
                             Command.of_point LINE (Vector2.mk 3 4)]))
        (Z.to_nat 1) = Some c
      /\ at_ 1 (Path_of [Command.of_point MOVE (Vector2.mk 1 2);
                         Command.of_point LINE (Vector2.mk 3 4)])
         = Some (c, Path_of [Command.of_point MOVE (Vector2.mk 1 2);
                             Command.of_point LINE (Vector2.mk 3 4)])
      /\ subscript 1 (Path_of [Command.of_point MOVE (Vector2.mk 1 2);
                               Command.of_point LINE (Vector2.mk 3 4)])
         = Some (c, Path_of [Command.of_point MOVE (Vector2.mk 1 2);
                             Command.of_point LINE (Vector2.mk 3 4)]))
  /\ (at_ (-1) (Path_of [Command.of_point MOVE (Vector2.mk 1 2);
                         Command.of_point LINE (Vector2.mk 3 4)]) = None
      /\ subscript (-1) (Path_of [Command.of_point MOVE (Vector2.mk 1 2);
                                  Command.of_point LINE (Vector2.mk 3 4)]) = None)
  /\ (front (Path_of [Command.of_point MOVE (Vector2.mk 1 2);
                      Command.of_point LINE (Vector2.mk 3 4)])
      = at_ 0 (Path_of [Command.of_point MOVE (Vector2.mk 1 2);
                        Command.of_point LINE (Vector2.mk 3 4)])
      /\ back (Path_of [Command.of_point MOVE (Vector2.mk 1 2);
                        Command.of_point LINE (Vector2.mk 3 4)])
         = at_ (Z.of_nat
                  (length
                     (commands_
                        (Path_of [Command.of_point MOVE (Vector2.mk 1 2);
                                  Command.of_point LINE (Vector2.mk 3 4)]))) - 1)
             (Path_of [Command.of_point MOVE (Vector2.mk 1 2);
                       Command.of_point LINE (Vector2.mk 3 4)])).
Proof.
  split; [|split].
  - apply (proj1 (element_access_is_checked
             (Path_of [Command.of_point MOVE (Vector2.mk 1 2);
                       Command.of_point LINE (Vector2.mk 3 4)]) 1
             ltac:(simpl; lia) ltac:(lia))).
    simpl. lia.
  - apply (proj1 (proj2 (element_access_is_checked
             (Path_of [Command.of_point MOVE (Vector2.mk 1 2);
                       Command.of_point LINE (Vector2.mk 3 4)]) (-1)
             ltac:(simpl; lia) ltac:(lia)))).
    left. lia.
  - apply (proj2 (proj2 (element_access_is_checked
             (Path_of [Command.of_point MOVE (Vector2.mk 1 2);
                       Command.of_point LINE (Vector2.mk 3 4)]) 0
             ltac:(simpl; lia) ltac:(lia)))).
    discriminate.
Defined.

(** ** Reverse iterators *)

Lemma walk_base_down (pre post : list Command) :
  walk_base (pre ++ post) O (length pre) = Some (rev pre).
Proof.
  revert post. induction pre as [|a pre IH] using rev_ind; intros post;
    [reflexivity|].
  rewrite length_app, Nat.add_comm, <- app_assoc. simpl.
  rewrite nth_error_app2, Nat.sub_diag by lia. simpl.
  rewrite (IH (a :: post)), rev_app_distr. reflexivity.
Qed.

(** X15. [rbegin()] wraps [begin()] and [rend()] wraps [end()], so the
    range from [rbegin()] to [rend()] holds no command: walking it ends at
    once on the empty path and steps before the first command on every other
    path.  The commands are met last to first by the walk from [rend()] to
    [rbegin()]. *)
Theorem reverse_range_is_the_wrong_way_round (this : Path) :
  exists first last,
    rbegin this = Some (first, this)
    /\ rend this = Some (last, this)
    /\ (commands_ this = [] -> walk first last this = Some ([], this))
    /\ (commands_ this <> [] -> walk first last this = None)
    /\ walk last first this = Some (rev (commands_ this), this).
Proof.
  eexists _, _. split; [reflexivity|split; [reflexivity|]].
  unfold walk, bind, commands, lift. simpl.
  split; [|split].
  - intros ->. reflexivity.
  - destruct (commands_ this); [contradiction|reflexivity].
  - pose proof (walk_base_down (commands_ this) []) as H.
    rewrite app_nil_r in H. now rewrite H.
Qed.

Lemma reverse_range_is_the_wrong_way_round_witness :
  exists first last,
    rbegin (Path_of [Command.of_point MOVE (Vector2.mk 1 2);
                     Command.of_point LINE (Vector2.mk 3 4)])
    = Some (first, Path_of [Command.of_point MOVE (Vector2.mk 1 2);
                            Command.of_point LINE (Vector2.mk 3 4)])
    /\ walk first last
         (Path_of [Command.of_point MOVE (Vector2.mk 1 2);
                   Command.of_point LINE (Vector2.mk 3 4)]) = None
    /\ walk last first
         (Path_of [Command.of_point MOVE (Vector2.mk 1 2);
                   Command.of_point LINE (Vector2.mk 3 4)])
       = Some ([Command.of_point LINE (Vector2.mk 3 4);
                Command.of_point MOVE (Vector2.mk 1 2)],
               Path_of [Command.of_point MOVE (Vector2.mk 1 2);
                        Command.of_point LINE (Vector2.mk 3 4)]).
Proof.
  destruct (reverse_range_is_the_wrong_way_round
              (Path_of [Command.of_point MOVE (Vector2.mk 1 2);
                        Command.of_point LINE (Vector2.mk 3 4)]))
    as (first & last & H1 & _ & _ & H4 & H5).
  exists first, last. split; [exact H1|split; [|exact H5]].
  apply H4. discriminate.
Defined.

(** ** The coordinate overloads *)

Lemma coordinate_overloads (x y cx cy cx1 cy1 cx2 cy2 : T) (this : Path) :
  moveTo_xy x y this = moveTo (Vector2.mk x y) this
  /\ lineTo_xy x y this = lineTo (Vector2.mk x y) this
  /\ quadraticTo_xy cx cy x y this
     = quadraticTo (Vector2.mk cx cy) (Vector2.mk x y) this
  /\ cubicTo_xy cx1 cy1 cx2 cy2 x y this
     = cubicTo (Vector2.mk cx1 cy1) (Vector2.mk cx2 cy2) (Vector2.mk x y) this.
Proof. repeat split. Qed.

(** ** The direction of a reversed path *)

Lemma open_path_shape (cs : list Command) :
  open_path cs = true ->
  exists c0 segs,
    cs = c0 :: segs /\ Command.kind c0 = MOVE
    /\ Forall (fun c => is_segment c = true) segs.
Proof.
  destruct cs as [|c0 segs]; [discriminate|]. simpl. intros H.
  apply andb_true_iff in H as [H0 H]. exists c0, segs.
  split; [reflexivity|split; [now apply Kind_eqb_eq|]].
  apply Forall_forall. now apply (proj1 (forallb_forall _ _)).
Qed.

(** C3, as the code has it.  For every path of at least 3 commands that is
    a MOVE followed by LINE, QUADRATIC and CUBIC commands only, and whose
    accumulated sum is neither zero nor the lowest [int]: [direction()] is
    not UNDEFINED, [reversed()] returns, and the direction of the reversed
    path is the opposite one. *)
Theorem reversed_direction_is_opposite (NDEBUG : bool) (this : Path) :
  open_path (commands_ this) = true ->
  (3 <= length (commands_ this))%nat ->
  direction_sum NDEBUG (commands_ this) <> Some 0 ->
  direction_sum NDEBUG (commands_ this) <> Some numeric_limits_lowest ->
  exists q d,
    reversed NDEBUG this = Some (q, this)
    /\ direction NDEBUG this = Some (d, this)
    /\ d <> UNDEFINED
    /\ direction NDEBUG q = Some (opposite d, q).
Proof.
  destruct this as [cs d0]. simpl commands_. intros Hopen Hn Hz Hl.
  destruct (open_path_shape cs Hopen) as (c0 & segs & -> & H0 & Hsegs).
  pose (r := flip (Command.point c0) segs []).
  pose proof (flip_blank segs Hsegs (Command.point c0) []) as Fb.
  pose proof (flip_points segs (Command.point c0) []) as Fp.
  pose proof (flip_segments segs Hsegs (Command.point c0) [] (Forall_nil _)) as Fs.
  fold r in Fb, Fp, Fs. simpl in Fp. rewrite app_nil_r in Fb.
  assert (Hlen : length (snd r) = length segs).
  { rewrite <- (length_map blank (snd r)), Fb, length_rev. apply length_map. }
  set (E := chain (Command.point c0 :: map Command.point segs)).
  assert (Hsum : direction_sum NDEBUG (c0 :: segs) = Some (int_wrap E))
    by (unfold direction_sum;
        now rewrite (direction_loop_segments NDEBUG segs Hsegs c0 c0 T_zero eq_refl)).
  assert (Hsum' : direction_sum NDEBUG (Command.set_point (fst r) c0 :: snd r)
                  = Some (int_wrap (- E))).
  { unfold direction_sum.
    rewrite (direction_loop_segments NDEBUG (snd r) Fs _ _ T_zero eq_refl).
    simpl Command.point. rewrite Fp.
    change (rev (map Command.point segs) ++ [Command.point c0])
      with (rev (Command.point c0 :: map Command.point segs)).
    now rewrite chain_rev. }
  rewrite Hsum in Hz, Hl.
  assert (Hs0 : int_wrap E <> 0)
    by (intros X; apply Hz; rewrite X; reflexivity).
  assert (Hsl : int_wrap E <> numeric_limits_lowest)
    by (intros X; apply Hl; rewrite X; reflexivity).
  rewrite int_wrap_opp in Hsum'.
  destruct (Z.eqb_spec (int_wrap E) numeric_limits_lowest) as [?|_];
    [contradiction|].
  exists (mkPath (Command.set_point (fst r) c0 :: snd r) d0),
    (if int_wrap E <? 0 then COUNTER_CLOCKWISE else CLOCKWISE).
  unfold reversed. rewrite (reverse_move_segments NDEBUG c0 segs d0 H0 Hsegs).
  fold r. rewrite !direction_run. simpl commands_. rewrite Hsum, Hsum'.
  simpl length in *. rewrite Hlen. apply Nat.ltb_ge in Hn. rewrite Hn.
  repeat split.
  - destruct (int_wrap E <? 0); discriminate.
  - destruct (Z.ltb_spec (int_wrap E) 0), (Z.ltb_spec (- int_wrap E) 0);
      try lia; reflexivity.
Qed.

Lemma reversed_direction_is_opposite_witness :
  exists q d,
    reversed false
      (Path_of [Command.of_point MOVE (Vector2.mk 0 0);
                Command.of_point LINE (Vector2.mk 10 0);
                Command.of_control QUADRATIC (Vector2.mk 20 5) (Vector2.mk 10 10)])
    = Some (q, Path_of [Command.of_point MOVE (Vector2.mk 0 0);
                        Command.of_point LINE (Vector2.mk 10 0);
                        Command.of_control QUADRATIC (Vector2.mk 20 5)
                          (Vector2.mk 10 10)])
    /\ direction false
         (Path_of [Command.of_point MOVE (Vector2.mk 0 0);
                   Command.of_point LINE (Vector2.mk 10 0);
                   Command.of_control QUADRATIC (Vector2.mk 20 5)
                     (Vector2.mk 10 10)])
       = Some (d, Path_of [Command.of_point MOVE (Vector2.mk 0 0);
                           Command.of_point LINE (Vector2.mk 10 0);
                           Command.of_control QUADRATIC (Vector2.mk 20 5)
                             (Vector2.mk 10 10)])
    /\ d <> UNDEFINED
    /\ direction false q = Some (opposite d, q).
Proof.
  apply (reversed_direction_is_opposite false).
  - reflexivity.
  - simpl. lia.
  - vm_compute. discriminate.
  - vm_compute. discriminate.
Defined.

(** C3, as stated, fails on the path built by [moveTo(0,0)], [lineTo(1,0)],
    [lineTo(2,0)]: the sum is zero for the path and for the reversed path,
    both directions are CLOCKWISE. *)
Lemma reversed_direction_of_collinear_path :
  exec (calls [MoveTo (Vector2.mk 0 0); LineTo (Vector2.mk 1 0);
               LineTo (Vector2.mk 2 0)]) Path_new
  = Some (Path_of [Command.of_point MOVE (Vector2.mk 0 0);
                   Command.of_point LINE (Vector2.mk 1 0);
                   Command.of_point LINE (Vector2.mk 2 0)])
  /\ eval (direction false)
       (Path_of [Command.of_point MOVE (Vector2.mk 0 0);
                 Command.of_point LINE (Vector2.mk 1 0);
                 Command.of_point LINE (Vector2.mk 2 0)]) = Some CLOCKWISE
  /\ eval (reversed false)
       (Path_of [Command.of_point MOVE (Vector2.mk 0 0);
                 Command.of_point LINE (Vector2.mk 1 0);
                 Command.of_point LINE (Vector2.mk 2 0)])
     = Some (Path_of [Command.of_point MOVE (Vector2.mk 2 0);
                      Command.of_point LINE (Vector2.mk 1 0);
                      Command.of_point LINE (Vector2.mk 0 0)])
  /\ eval (direction false)
       (Path_of [Command.of_point MOVE (Vector2.mk 2 0);
                 Command.of_point LINE (Vector2.mk 1 0);
                 Command.of_point LINE (Vector2.mk 0 0)]) = Some CLOCKWISE
  /\ Some CLOCKWISE <> Some (opposite CLOCKWISE).
Proof. repeat split. discriminate. Qed.

(** C3 fails as well when the sum is the lowest [int], whose opposite no
    [int] holds: on the path built by [moveTo(1,0)], [lineTo(1,-2^30)],
    [lineTo(-1,0)] the sum is -2^31, the sum of the reversed path comes out
    as -2^31 again, and both directions are COUNTER_CLOCKWISE. *)
Lemma reversed_direction_of_lowest_sum :
  exec (calls [MoveTo (Vector2.mk 1 0); LineTo (Vector2.mk 1 (-1073741824));
               LineTo (Vector2.mk (-1) 0)]) Path_new
  = Some (Path_of [Command.of_point MOVE (Vector2.mk 1 0);
                   Command.of_point LINE (Vector2.mk 1 (-1073741824));
                   Command.of_point LINE (Vector2.mk (-1) 0)])
  /\ direction_sum false
       [Command.of_point MOVE (Vector2.mk 1 0);
        Command.of_point LINE (Vector2.mk 1 (-1073741824));
        Command.of_point LINE (Vector2.mk (-1) 0)] = Some numeric_limits_lowest
  /\ eval (direction false)
       (Path_of [Command.of_point MOVE (Vector2.mk 1 0);
                 Command.of_point LINE (Vector2.mk 1 (-1073741824));
                 Command.of_point LINE (Vector2.mk (-1) 0)])
     = Some COUNTER_CLOCKWISE
  /\ eval (reversed false)
       (Path_of [Command.of_point MOVE (Vector2.mk 1 0);
                 Command.of_point LINE (Vector2.mk 1 (-1073741824));
                 Command.of_point LINE (Vector2.mk (-1) 0)])
     = Some (Path_of [Command.of_point MOVE (Vector2.mk (-1) 0);
                      Command.of_point LINE (Vector2.mk 1 (-1073741824));
                      Command.of_point LINE (Vector2.mk 1 0)])
  /\ eval (direction false)
       (Path_of [Command.of_point MOVE (Vector2.mk (-1) 0);
                 Command.of_point LINE (Vector2.mk 1 (-1073741824));
                 Command.of_point LINE (Vector2.mk 1 0)])
     = Some COUNTER_CLOCKWISE.
Proof. repeat split. Qed.

(** C3 fails as well on paths that hold a CLOSE.  With the CLOSE inside, on
    the path built by [moveTo(0,5)], [close()], [lineTo(1,0)],
    [lineTo(0,1)], the path and the reversed path are both CLOCKWISE. *)
Lemma reversed_direction_of_inner_close :
  exec (calls [MoveTo (Vector2.mk 0 5); Close; LineTo (Vector2.mk 1 0);
               LineTo (Vector2.mk 0 1)]) Path_new
  = Some (Path_of [Command.of_point MOVE (Vector2.mk 0 5);
                   Command.of_kind CLOSE;
                   Command.of_point LINE (Vector2.mk 1 0);
                   Command.of_point LINE (Vector2.mk 0 1)])
  /\ eval (direction false)
       (Path_of [Command.of_point MOVE (Vector2.mk 0 5);
                 Command.of_kind CLOSE;
                 Command.of_point LINE (Vector2.mk 1 0);
                 Command.of_point LINE (Vector2.mk 0 1)]) = Some CLOCKWISE
  /\ eval (reversed false)
       (Path_of [Command.of_point MOVE (Vector2.mk 0 5);
                 Command.of_kind CLOSE;
                 Command.of_point LINE (Vector2.mk 1 0);
                 Command.of_point LINE (Vector2.mk 0 1)])
     = Some (Path_of [Command.of_point MOVE (Vector2.mk 0 1);
                      Command.of_point LINE (Vector2.mk 1 0);
                      Command.of_point LINE (Vector2.mk 0 5);
                      Command.of_kind CLOSE])
  /\ eval (direction false)
       (Path_of [Command.of_point MOVE (Vector2.mk 0 1);
                 Command.of_point LINE (Vector2.mk 1 0);
                 Command.of_point LINE (Vector2.mk 0 5);
                 Command.of_kind CLOSE]) = Some CLOCKWISE.
Proof. repeat split. Qed.

(** With the CLOSE at the end and a point stored in it, on the commands
    MOVE(0,0), LINE(1,0), LINE(1,1), CLOSE holding (5,0), the path and the
    reversed path are both CLOCKWISE. *)
Lemma reversed_direction_of_final_close :
  eval (direction false)
    (Path_of [Command.of_point MOVE (Vector2.mk 0 0);
              Command.of_point LINE (Vector2.mk 1 0);
              Command.of_point LINE (Vector2.mk 1 1);
              Command.of_point CLOSE (Vector2.mk 5 0)]) = Some CLOCKWISE
  /\ eval (reversed false)
       (Path_of [Command.of_point MOVE (Vector2.mk 0 0);
                 Command.of_point LINE (Vector2.mk 1 0);
                 Command.of_point LINE (Vector2.mk 1 1);
                 Command.of_point CLOSE (Vector2.mk 5 0)])
     = Some (Path_of [Command.of_point MOVE (Vector2.mk 1 1);
                      Command.of_point LINE (Vector2.mk 1 0);
                      Command.of_point LINE (Vector2.mk 0 0);
                      Command.of_point CLOSE (Vector2.mk 5 0)])
  /\ eval (direction false)
       (Path_of [Command.of_point MOVE (Vector2.mk 1 1);
                 Command.of_point LINE (Vector2.mk 1 0);
                 Command.of_point LINE (Vector2.mk 0 0);
                 Command.of_point CLOSE (Vector2.mk 5 0)]) = Some CLOCKWISE.
Proof. repeat split. Qed.

(** C3 fails as well when the first command is not a MOVE: on the commands
    QUADRATIC with control (0,5) and point (1,0), LINE(1,1), LINE(0,1), the
    control of the first command becomes the last on-curve point, and the
    path and the reversed path are both CLOCKWISE. *)
Lemma reversed_direction_of_leading_curve :
  eval (direction false)
    (Path_of [Command.of_control QUADRATIC (Vector2.mk 0 5) (Vector2.mk 1 0);
              Command.of_point LINE (Vector2.mk 1 1);
              Command.of_point LINE (Vector2.mk 0 1)]) = Some CLOCKWISE
  /\ eval (reversed false)
       (Path_of [Command.of_control QUADRATIC (Vector2.mk 0 5) (Vector2.mk 1 0);
                 Command.of_point LINE (Vector2.mk 1 1);
                 Command.of_point LINE (Vector2.mk 0 1)])
     = Some (Path_of [Command.of_control QUADRATIC (Vector2.mk 0 1) (Vector2.mk 1 1);
                      Command.of_point LINE (Vector2.mk 1 0);
                      Command.of_point LINE (Vector2.mk 0 5)])
  /\ eval (direction false)
       (Path_of [Command.of_control QUADRATIC (Vector2.mk 0 1) (Vector2.mk 1 1);
                 Command.of_point LINE (Vector2.mk 1 0);
                 Command.of_point LINE (Vector2.mk 0 5)]) = Some CLOCKWISE.
Proof. repeat split. Qed.
